(** * Hub chunk engine: write path, cache chain, chunk generator, shapes

    A shallow embedding of [hub/core/chunk_engine/write.py] and of the
    helpers its tests exercise, together with the properties the design
    document states about them.

    Python objects are modelled as follows.
    - [bytes] is a list of [byte].
    - A [MemoryProvider] is a finite map from keys to byte strings with an
      optional capacity.
    - The mutable arguments [storage] and [cache_chain] of the write path
      form the [world] that every operation threads; a raised exception
      leaves the world as mutated so far, as in Python.
    - Exceptions are the constructors of [exn]. *)

From Stdlib Require Import Strings.Byte Strings.Ascii.
From stdpp Require Import gmap strings list fin_maps pretty.

Abbreviation bytes := (list byte).

(** ** Exceptions and outcomes *)

Inductive exn : Type :=
  | TypeError          (* raising an object that is not an exception *)
  | NotImplementedError
  | UnboundLocalError  (* a local read before any assignment *)
  | CachingFailed      (* [Exception("Caching failed even after flushing.")] *)
  | KeyError (k : string)
  | IndexError
  | UnpicklingError
  | ValueError.

Inductive outcome (A : Type) : Type :=
  | Ok (a : A)
  | Raise (e : exn).
Arguments Ok {A} a.
Arguments Raise {A} e.

(** ** Storage providers *)

Module Provider.

(** Modelled from the spec: the class [MemoryProvider] (imported by
    write.py from [write_impl]) is not part of the sources.  Section 4.3:
    a key to bytes mapping with [set], [delete], iteration over
    (key, bytes) pairs and [has_space]; a bounded tier has space for [n]
    bytes iff [used_space + n <= total_capacity], an unbounded provider
    always has.  [used_space] is the number of bytes held. *)
Record MemoryProvider : Type := mk {
  mapper : gmap string bytes;
  max_size : option nat
}.

Definition items (p : MemoryProvider) : list (string * bytes) :=
  map_to_list (mapper p).

Definition used_space (p : MemoryProvider) : nat :=
  sum_list ((λ kv, length kv.2) <$> items p).

Definition has_space (p : MemoryProvider) (num_bytes : nat) : bool :=
  match max_size p with
  | None => true
  | Some total => bool_decide (used_space p + num_bytes ≤ total)
  end.

(** [p[key] = b] *)
Definition setitem (key : string) (b : bytes) (p : MemoryProvider) : MemoryProvider :=
  mk (<[key := b]> (mapper p)) (max_size p).

(** [del p[key]]; the write path only deletes keys it has just iterated
    over (see [flush_keys_present]), so the missing-key case is not
    modelled as an exception. *)
Definition delitem (key : string) (p : MemoryProvider) : MemoryProvider :=
  mk (delete key (mapper p)) (max_size p).

(** [p[key]] *)
Definition getitem (key : string) (p : MemoryProvider) : outcome bytes :=
  match mapper p !! key with
  | Some b => Ok b
  | None => Raise (KeyError key)
  end.

Definition emptied (p : MemoryProvider) : MemoryProvider := mk ∅ (max_size p).

End Provider.
Import Provider.

(** ** The world and its monad *)

Record world : Type := World {
  storage : MemoryProvider;
  cache_chain : list MemoryProvider
}.

Definition M (A : Type) : Type := world → world * outcome A.

Definition raise {A} (e : exn) : M A := λ w, (w, Raise e).

#[global] Instance M_ret : MRet M := λ A a w, (w, Ok a).
#[global] Instance M_bind : MBind M := λ A B k m w,
  match m w with
  | (w', Ok a) => k a w'
  | (w', Raise e) => (w', Raise e)
  end.

Definition lift_outcome {A} (o : outcome A) : M A := λ w, (w, o).

Definition get_chain : M (list MemoryProvider) := λ w, (w, Ok (cache_chain w)).

(** ** write.py *)

(** [write_to_storage(key, b, storage)] *)
Definition write_to_storage (key : string) (b : bytes) : M unit :=
  λ w, (World (setitem key b (storage w)) (cache_chain w), Ok tt).

(** [write_to_cache(key, b, cache_chain)]: first tier with space wins. *)
Fixpoint write_to_cache_chain (key : string) (b : bytes)
    (chain : list MemoryProvider) : list MemoryProvider * bool :=
  match chain with
  | [] => ([], false)
  | cache :: rest =>
      if has_space cache (length b) then (setitem key b cache :: rest, true)
      else let '(rest', ok) := write_to_cache_chain key b rest in
           (cache :: rest', ok)
  end.

Definition write_to_cache (key : string) (b : bytes) : M bool :=
  λ w, let '(chain', ok) := write_to_cache_chain key b (cache_chain w) in
       (World (storage w) chain', Ok ok).

(** One iteration of the outer loop of [flush_cache]: copy every item of
    [cache] into [storage], collecting the keys, then delete the keys. *)
Definition flush_tier (cache storage : MemoryProvider) : MemoryProvider * MemoryProvider :=
  let kvs := items cache in
  let storage' := foldl (λ s kv, setitem kv.1 kv.2 s) storage kvs in
  let keys := kvs.*1 in
  let cache' := foldl (λ c key, delitem key c) cache keys in
  (cache', storage').

Fixpoint flush_chain (chain : list MemoryProvider) (storage : MemoryProvider)
    : list MemoryProvider * MemoryProvider :=
  match chain with
  | [] => ([], storage)
  | cache :: rest =>
      let '(cache', storage') := flush_tier cache storage in
      let '(rest', storage'') := flush_chain rest storage' in
      (cache' :: rest', storage'')
  end.

(** [flush_cache(cache_chain, storage)] *)
Definition flush_cache : M unit :=
  λ w, let '(chain', storage') := flush_chain (cache_chain w) (storage w) in
       (World storage' chain', Ok tt).

(** [write_bytes_with_caching(key, b, cache_chain, storage)] *)
Definition write_bytes_with_caching (key : string) (b : bytes) : M unit :=
  chain ← get_chain;
  if bool_decide (length chain ≤ 0) then
    write_to_storage key b
  else
    cache_success ← write_to_cache key b;
    if negb cache_success then
      flush_cache;;
      cache_success ← write_to_cache key b;
      if negb cache_success then raise CachingFailed else mret tt
    else mret tt.

(** ** Keys *)

Fixpoint ends_with_slash (s : string) : bool :=
  match s with
  | EmptyString => false
  | String c EmptyString => bool_decide (c = "/"%char)
  | String _ s' => ends_with_slash s'
  end.

Definition starts_with_slash (s : string) : bool :=
  match s with
  | String c _ => bool_decide (c = "/"%char)
  | EmptyString => false
  end.

(** [os.path.join(a, b)] on a POSIX system. *)
Definition path_join (a b : string) : string :=
  if starts_with_slash b then b
  else if bool_decide (a = "") || ends_with_slash a then a +:+ b
  else a +:+ "/" +:+ b.

(** [os.path.join(key, "c%i" % local_chunk_index)] *)
Definition chunk_key (key : string) (local_chunk_index : nat) : string :=
  path_join key ("c" +:+ pretty local_chunk_index).

(** [os.path.join(key, "index_map")] *)
Definition index_map_key (key : string) : string := path_join key "index_map".

(** ** The chunk generator *)

(** Slices of [chunk_size] bytes, the last one shorter when the input does
    not divide evenly.  The recursion is bounded by the input length, which
    every [chunk_size >= 1] stays within. *)
Fixpoint chunks_from (fuel chunk_size : nat) (b : bytes) : list bytes :=
  match fuel with
  | 0 => []
  | S fuel' =>
      match b with
      | [] => []
      | _ :: _ => take chunk_size b :: chunks_from fuel' chunk_size (drop chunk_size b)
      end
  end.

(** Modelled from the spec: [generate_chunks] (hub/core/chunk_engine/
    generator.py) is not part of the sources.  Section 4.2: empty input
    yields nothing; when [last_chunk_num_bytes] is given and smaller than
    [chunk_size] the first slice has
    [min(chunk_size - last_chunk_num_bytes, len(input))] bytes; every later
    slice has [chunk_size] bytes except the last, which is the remainder. *)
Definition generate_chunks (b : bytes) (chunk_size : nat)
    (last_chunk_num_bytes : option nat) : list bytes :=
  match b with
  | [] => []
  | _ :: _ =>
      match last_chunk_num_bytes with
      | Some n =>
          if decide (n < chunk_size) then
            take (chunk_size - n) b
              :: chunks_from (length b) chunk_size (drop (chunk_size - n) b)
          else chunks_from (length b) chunk_size b
      | None => chunks_from (length b) chunk_size b
      end
  end.

(** [run_test] of tests/test_generate_chunks.py: the running list of chunks
    and the threaded [last_chunk_num_bytes]. *)
Definition fill_or_append (chunk_size : nat) (actual_chunks : list bytes)
    (chunk : bytes) : list bytes :=
  match last actual_chunks with
  | None => actual_chunks ++ [chunk]
  | Some prev =>
      if decide (chunk_size ≤ length prev) then actual_chunks ++ [chunk]
      else removelast actual_chunks ++ [prev ++ chunk]
  end.

Definition run_test_step (chunk_size : nat) (st : list bytes * option nat)
    (chunk_bytes : bytes) : list bytes * option nat :=
  (fill_or_append chunk_size st.1 chunk_bytes, Some (length chunk_bytes)).

Definition run_test_call (chunk_size : nat) (st : list bytes * option nat)
    (bytes_object : bytes) : list bytes * option nat :=
  foldl (run_test_step chunk_size) st (generate_chunks bytes_object chunk_size st.2).

Definition run_test (chunk_size : nat) (bytes_batch : list bytes) : list bytes :=
  (foldl (run_test_call chunk_size) ([], None) bytes_batch).1.

(** The slices in the order the generator yields them over the batch, with
    the same threading of [last_chunk_num_bytes] as [run_test]. *)
Fixpoint yielded_slices (chunk_size : nat) (last_chunk_num_bytes : option nat)
    (bytes_batch : list bytes) : list bytes :=
  match bytes_batch with
  | [] => []
  | bytes_object :: rest =>
      let slices := generate_chunks bytes_object chunk_size last_chunk_num_bytes in
      let lcnb := match last slices with
                  | Some s => Some (length s)
                  | None => last_chunk_num_bytes
                  end in
      slices ++ yielded_slices chunk_size lcnb rest
  end.

(** ** Arrays and shapes *)

Inductive dtype : Type := uint8 | int64 | float64 | bool_.

Definition itemsize (d : dtype) : nat :=
  match d with uint8 => 1 | int64 => 8 | float64 => 8 | bool_ => 1 end.

(** A C-contiguous numpy array: element type, shape and the row-major
    buffer of its elements. *)
Record ndarray : Type := Array {
  dtype_of : dtype;
  shape : list nat;
  buffer : bytes
}.

Definition num_elements (s : list nat) : nat := foldr Nat.mul 1 s.

Definition well_formed (a : ndarray) : Prop :=
  length (buffer a) = itemsize (dtype_of a) * num_elements (shape a).

(** [a.flatten()] *)
Definition flatten (a : ndarray) : ndarray :=
  Array (dtype_of a) [num_elements (shape a)] (buffer a).

(** [a.reshape(s)]: a view of the same buffer, refused when the element
    counts differ. *)
Definition reshape (a : ndarray) (s : list nat) : outcome ndarray :=
  if decide (num_elements s = num_elements (shape a))
  then Ok (Array (dtype_of a) s (buffer a))
  else Raise ValueError.

(** Modelled from the spec: [array_to_bytes] (chunk_engine/util.py) is not
    part of the sources.  Section 4.5, step 2: the flat byte buffer of the
    array, row-major, native width per element. *)
Definition array_to_bytes (a : ndarray) : bytes := buffer a.

Fixpoint strip_trailing_ones (s : list nat) : list nat :=
  match s with
  | [] => []
  | d :: r =>
      match strip_trailing_ones r with
      | [] => if decide (d = 1) then [] else [d]
      | r' => d :: r'
      end
  end.

Definition batchify_shape (batched : bool) (s : list nat) : list nat :=
  if batched then s else 1 :: s.

Definition normalize_shape (s : list nat) : list nat :=
  match s with
  | d0 :: d1 :: r => d0 :: d1 :: strip_trailing_ones r
  | [d0] => [d0; 1]
  | [] => [1; 1]
  end.

(** Modelled from the spec: [normalize_and_batchify_shape]
    (chunk_engine/util.py) is not part of the sources.  Section 4.1: a
    leading axis of size 1 is added to an unbatched array and trailing axes
    of size 1 are dropped down to rank 2; the result has rank at least 2, so
    a shape of rank below 2 is completed to rank 2 with trailing axes of
    size 1 (an all-ones shape gives [(1, 1)]); the result is a reshape of
    the input.  The batch axis is added first: the table of
    tests/test_utils.py expects [(1, 1)] for the unbatched shapes [(1, 1)]
    and [(1,)]. *)
Definition normalize_and_batchify_shape (a : ndarray) (batched : bool)
    : outcome ndarray :=
  reshape a (normalize_shape (batchify_shape batched (shape a))).

(** ** The index map *)

Record IndexMapEntry : Type := Entry {
  start_chunk : nat;
  end_chunk : nat;
  entry_dtype : dtype;
  entry_shape : list nat
}.

(** [pickle.dumps] / [pickle.loads] restricted to index maps.  The engine
    treats the encoding as opaque; all it relies on is that loading a dump
    gives the value back. *)
Record Pickler : Type := {
  pickle_dumps : list IndexMapEntry → bytes;
  pickle_loads : bytes → option (list IndexMapEntry)
}.

Definition pickle_correct (P : Pickler) : Prop :=
  ∀ index_map, pickle_loads P (pickle_dumps P index_map) = Some index_map.

(** A small self-delimiting codec, used to run the engine on concrete
    inputs: naturals in unary, sequences prefixed by their length. *)
Module UnaryPickle.

Definition put_nat (n : nat) : bytes := replicate n x01 ++ [x00].

Fixpoint get_nat (bs : bytes) : option (nat * bytes) :=
  match bs with
  | x00 :: r => Some (0, r)
  | x01 :: r =>
      match get_nat r with
      | Some (n, r') => Some (S n, r')
      | None => None
      end
  | _ => None
  end.

Definition put_seq {A} (put : A → bytes) (l : list A) : bytes :=
  put_nat (length l) ++ concat (put <$> l).

Fixpoint get_n {A} (get : bytes → option (A * bytes)) (n : nat) (bs : bytes)
    : option (list A * bytes) :=
  match n with
  | 0 => Some ([], bs)
  | S n' =>
      match get bs with
      | Some (x, r) =>
          match get_n get n' r with
          | Some (xs, r') => Some (x :: xs, r')
          | None => None
          end
      | None => None
      end
  end.

Definition get_seq {A} (get : bytes → option (A * bytes)) (bs : bytes)
    : option (list A * bytes) :=
  match get_nat bs with
  | Some (n, r) => get_n get n r
  | None => None
  end.

Definition dtype_tag (d : dtype) : nat :=
  match d with uint8 => 0 | int64 => 1 | float64 => 2 | bool_ => 3 end.

Definition tag_dtype (n : nat) : option dtype :=
  match n with
  | 0 => Some uint8 | 1 => Some int64 | 2 => Some float64 | 3 => Some bool_
  | _ => None
  end.

Definition put_entry (e : IndexMapEntry) : bytes :=
  put_nat (start_chunk e) ++ put_nat (end_chunk e)
    ++ put_nat (dtype_tag (entry_dtype e)) ++ put_seq put_nat (entry_shape e).

Definition get_entry (bs : bytes) : option (IndexMapEntry * bytes) :=
  match get_nat bs with
  | Some (s, r1) =>
      match get_nat r1 with
      | Some (e, r2) =>
          match get_nat r2 with
          | Some (t, r3) =>
              match tag_dtype t, get_seq get_nat r3 with
              | Some d, Some (sh, r4) => Some (Entry s e d sh, r4)
              | _, _ => None
              end
          | None => None
          end
      | None => None
      end
  | None => None
  end.

Definition dumps (index_map : list IndexMapEntry) : bytes :=
  put_seq put_entry index_map.

Definition loads (bs : bytes) : option (list IndexMapEntry) :=
  match get_seq get_entry bs with
  | Some (index_map, []) => Some index_map
  | _ => None
  end.

Definition pickler : Pickler := {| pickle_dumps := dumps; pickle_loads := loads |}.

End UnaryPickle.

(** ** write.py, continued: the sample writer *)

(** The body of [for local_chunk_index, chunk in enumerate(chunk_gen)].
    The last argument is the loop variable as the code after the loop sees
    it: [None] while it has never been bound. *)
Fixpoint write_chunks (key : string) (compressor : bytes → bytes)
    (idx : nat) (chunks : list bytes) (local_chunk_index : option nat)
    : M (option nat) :=
  match chunks with
  | [] => mret local_chunk_index
  | chunk :: rest =>
      let compressed_chunk := compressor chunk in
      write_bytes_with_caching (chunk_key key idx) compressed_chunk;;
      write_chunks key compressor (S idx) rest (Some idx)
  end.

(** [chunk_and_write_bytes(b, key, compressor, chunk_size, storage, cache_chain)] *)
Definition chunk_and_write_bytes (b : bytes) (key : string)
    (compressor : bytes → bytes) (chunk_size : nat) : M (nat * nat) :=
  let lcnb := None in
  let chunk_gen := generate_chunks b chunk_size lcnb in
  local_chunk_index ← write_chunks key compressor 0 chunk_gen None;
  flush_cache;;
  let start_chunk := 0 in
  match local_chunk_index with
  | None => raise UnboundLocalError
  | Some end_chunk => mret (start_chunk, end_chunk)
  end.

(** [chunk_and_write_array(array, key, compressor, chunk_size, storage,
    cache_chain, batched)].  [raise NotImplemented] raises a [TypeError]:
    [NotImplemented] is a constant, not an exception class. *)
Definition chunk_and_write_array (P : Pickler) (array : ndarray) (key : string)
    (compressor : bytes → bytes) (chunk_size : nat) (batched : bool) : M unit :=
  if batched then raise TypeError
  else
    let b := array_to_bytes array in
    range ← chunk_and_write_bytes b key compressor chunk_size;
    let index_map := [] in
    let index_map :=
      index_map ++ [Entry range.1 range.2 (dtype_of array) (shape array)] in
    write_to_storage (index_map_key key) (pickle_dumps P index_map).

(** ** The sample reader *)

Definition storage_get (key : string) : M bytes :=
  λ w, (w, getitem key (storage w)).

Fixpoint read_chunks (key : string) (decompressor : bytes → bytes)
    (indices : list nat) : M (list bytes) :=
  match indices with
  | [] => mret []
  | i :: rest =>
      c ← storage_get (chunk_key key i);
      cs ← read_chunks key decompressor rest;
      mret (decompressor c :: cs)
  end.

(** [np.frombuffer(b, dtype).reshape(shape)] *)
Definition array_from_bytes (b : bytes) (d : dtype) (s : list nat) : outcome ndarray :=
  if decide (length b = itemsize d * num_elements s)
  then Ok (Array d s b)
  else Raise ValueError.

(** Modelled from the spec: [read_sample] (chunk_engine/read.py) is not part
    of the sources.  Section 4.6: load and deserialize the key's index map,
    index it by [sample_index], fetch the chunks [start_chunk..=end_chunk]
    in ascending order and decompress each, concatenate and reinterpret the
    bytes with the recorded dtype and shape. *)
Definition read_sample (P : Pickler) (decompressor : bytes → bytes)
    (key : string) (sample_index : nat) : M ndarray :=
  blob ← storage_get (index_map_key key);
  match pickle_loads P blob with
  | None => raise UnpicklingError
  | Some index_map =>
      match index_map !! sample_index with
      | None => raise IndexError
      | Some entry =>
          chunks ← read_chunks key decompressor
                     (seq (start_chunk entry) (S (end_chunk entry) - start_chunk entry));
          lift_outcome
            (array_from_bytes (concat chunks) (entry_dtype entry) (entry_shape entry))
      end
  end.

(** [run_engine_test] of tests/util.py, one iteration: write the [i]-th
    array, then read sample [i] back. *)
Definition write_then_read (P : Pickler) (compressor decompressor : bytes → bytes)
    (a_in : ndarray) (key : string) (chunk_size : nat) (batched : bool) (i : nat)
    : M ndarray :=
  chunk_and_write_array P a_in key compressor chunk_size batched;;
  read_sample P decompressor key i.

(** ** hub/collections/dataset/__init__.py *)

Module Dataset.

(** The exceptions these helpers raise. *)
Inductive py_exn : Type :=
  | AssertionError
  | MissingKey (k : string)   (* [KeyError] *)
  | EmptyIndex                (* [IndexError]: [t[0]] on an empty tuple *)
  | TupleAssignment.          (* [TypeError]: item assignment to a tuple *)

Inductive result (A : Type) : Type :=
  | Return (a : A)
  | Throw (e : py_exn).
Arguments Return {A} a.
Arguments Throw {A} e.

#[global] Instance result_ret : MRet result := λ A a, Return a.
#[global] Instance result_bind : MBind result := λ A B k r,
  match r with
  | Return a => k a
  | Throw e => Throw e
  end.

(** [assert b] *)
Definition py_assert (b : bool) : result unit :=
  if b then Return tt else Throw AssertionError.

(** A python [dict] with string keys, in insertion order. *)
Abbreviation pydict V := (list (string * V)).

(** [d[k] = v] *)
Definition dict_set {V} (k : string) (v : V) (d : pydict V) : pydict V :=
  if decide (k ∈ d.*1)
  then (λ kv, if decide (kv.1 = k) then (k, v) else kv) <$> d
  else d ++ [(k, v)].

(** The meta dictionary of a tensor, restricted to the keys these helpers
    read; an absent key is [None].  The dtype, dtag and dcompress values
    are strings (as in the tables [dtags] and [codecs] of this file), the
    shape is a tuple of integers. *)
Record TensorMeta : Type := Meta {
  meta_dtype : option string;
  meta_shape : option (list Z);
  meta_dtag : option string;
  meta_dcompress : option string
}.

(** [d[name]] *)
Definition field {A} (name : string) (o : option A) : result A :=
  match o with
  | Some a => Return a
  | None => Throw (MissingKey name)
  end.

(** [t[0]] *)
Definition first (t : list Z) : result Z :=
  match t with
  | d :: _ => Return d
  | [] => Throw EmptyIndex
  end.

(** [[meta["shape"][0] for meta in metas]] *)
Fixpoint first_dims (metas : list TensorMeta) : result (list Z) :=
  match metas with
  | [] => Return []
  | meta :: rest =>
      shape ← field "shape" (meta_shape meta);
      d ← first shape;
      ds ← first_dims rest;
      Return (d :: ds)
  end.

(** [sum(l)] *)
Definition sum (l : list Z) : Z := foldr Z.add 0%Z l.

(** The four assertions of the loop of [_meta_concat]. *)
Definition meta_check (_meta meta : TensorMeta) : result unit :=
  d0 ← field "dtype" (meta_dtype _meta);
  d ← field "dtype" (meta_dtype meta);
  py_assert (bool_decide (d0 = d));;
  s0 ← field "shape" (meta_shape _meta);
  s ← field "shape" (meta_shape meta);
  py_assert (bool_decide (tail s0 = tail s));;
  py_assert (bool_decide (meta_dtag _meta = meta_dtag meta));;
  c0 ← field "dcompress" (meta_dcompress _meta);
  c ← field "dcompress" (meta_dcompress meta);
  py_assert (bool_decide (c0 = c)).

Fixpoint meta_check_all (_meta : TensorMeta) (metas : list TensorMeta) : result unit :=
  match metas with
  | [] => Return tt
  | meta :: rest => meta_check _meta meta;; meta_check_all _meta rest
  end.

(** [_meta_concat(metas)], as to what it returns or raises.  The returned
    dictionary is [metas[0]] itself, updated in place; that in-place update
    of the argument is not part of this model. *)
Definition _meta_concat (metas : list TensorMeta) : result TensorMeta :=
  match metas with
  | [] => Throw EmptyIndex
  | _meta :: _ =>
      meta_check_all _meta metas;;
      dims ← first_dims metas;
      s0 ← field "shape" (meta_shape _meta);
      let shape := sum dims :: tail s0 in
      d ← first shape;
      if decide (d < 0)%Z then Throw TupleAssignment
      else Return (Meta (meta_dtype _meta) (Some shape)
                        (meta_dtag _meta) (meta_dcompress _meta))
  end.

(** The loop [for key, value in meta.items()] of [_meta_preprocess]. *)
Fixpoint check_fields (items : pydict TensorMeta) : result unit :=
  match items with
  | [] => Return tt
  | (_, value) :: rest =>
      py_assert (bool_decide (is_Some (meta_dtype value)));;
      py_assert (bool_decide (is_Some (meta_shape value)));;
      check_fields rest
  end.

(** [_meta_preprocess(meta)] *)
Definition _meta_preprocess (meta : pydict TensorMeta) : result (pydict TensorMeta) :=
  let meta := meta in
  dims ← first_dims meta.*2;
  py_assert (bool_decide (length (remove_dups dims) = 1));;
  check_fields meta;;
  Return meta.

(** The inner loop of [merge]: the items of one dataset. *)
Fixpoint merge_items {T} (items : pydict T) (tensors : pydict T) : result (pydict T) :=
  match items with
  | [] => Return tensors
  | (tname, tvalue) :: rest =>
      py_assert (bool_decide (tname ∉ tensors.*1));;
      merge_items rest (dict_set tname tvalue tensors)
  end.

Fixpoint merge_datasets {T} (datasets : list (pydict T)) (tensors : pydict T)
    : result (pydict T) :=
  match datasets with
  | [] => Return tensors
  | dataset :: rest =>
      tensors' ← merge_items dataset tensors;
      merge_datasets rest tensors'
  end.

(** [merge(datasets)]: each dataset is given by its [_tensors] dictionary;
    [Dataset] is the constructor of the class, which is not part of the
    sources. *)
Definition merge {T D} (Dataset : pydict T → result D) (datasets : list (pydict T))
    : result D :=
  tensors ← merge_datasets datasets [];
  Dataset tensors.

(** Two metas pass the assertions of the loop of [_meta_concat]: the first
    has the keys read from it, and the second has the same dtype, trailing
    shape, dtag and dcompress. *)
Definition agree (m0 m : TensorMeta) : Prop :=
  is_Some (meta_dtype m0) ∧ meta_dtype m = meta_dtype m0
  ∧ is_Some (meta_shape m0) ∧ tail <$> meta_shape m = tail <$> meta_shape m0
  ∧ meta_dtag m = meta_dtag m0
  ∧ is_Some (meta_dcompress m0) ∧ meta_dcompress m = meta_dcompress m0.

End Dataset.

(** ** Specification-level notions *)

(** What the backend holds once the tiers of [chain] have been copied into
    it one after the other. *)
Definition flushed_into (chain : list MemoryProvider) (m : gmap string bytes)
    : gmap string bytes :=
  foldl (λ m cache, mapper cache ∪ m) m chain.

(** Every chunk but the last has exactly [chunk_size] bytes. *)
Definition non_final_full (chunk_size : nat) (chunks : list bytes) : Prop :=
  Forall (λ s, length s = chunk_size) (removelast chunks).

(** The backend as a flush would leave it. *)
Definition view (w : world) : gmap string bytes :=
  flushed_into (cache_chain w) (mapper (storage w)).

Definition B (s : string) : bytes := String.list_byte_of_string s.

(** The round trip as the design document states it: reading sample [i]
    after the [i]-th write gives the normalized input back. *)
Definition round_trip_claim (P : Pickler) (compressor decompressor : bytes → bytes)
    (a : ndarray) (key : string) (chunk_size : nat) (batched : bool) (i : nat)
    (w : world) : Prop :=
  ∃ a_norm,
    normalize_and_batchify_shape a batched = Ok a_norm
    ∧ (write_then_read P compressor decompressor a key chunk_size batched i w).2
      = Ok a_norm.

(** * Properties *)

(** ** Providers *)

Lemma max_size_setitem key b p : max_size (setitem key b p) = max_size p.
Proof. reflexivity. Qed.

Lemma used_space_emptied p : used_space (emptied p) = 0.
Proof. unfold used_space, items, emptied; simpl. by rewrite map_to_list_empty. Qed.

Lemma items_emptied p : items (emptied p) = [].
Proof. unfold items, emptied; simpl. apply map_to_list_empty. Qed.

Lemma emptied_id p : mapper p = ∅ → emptied p = p.
Proof. destruct p as [m c]; simpl; intros ->; reflexivity. Qed.

Lemma emptied_chain_id chain :
  Forall (λ c, mapper c = ∅) chain → emptied <$> chain = chain.
Proof.
  intros Hall. induction Hall as [|c chain Hc _ IH]; [done|].
  rewrite fmap_cons. by rewrite emptied_id, IH.
Qed.

(** A tier that is out of room when empty is out of room whatever it holds. *)
Lemma has_space_emptied_false p n :
  has_space (emptied p) n = false → has_space p n = false.
Proof.
  unfold has_space; simpl. destruct (max_size p) as [total|]; [|done].
  rewrite used_space_emptied, !bool_decide_eq_false. lia.
Qed.

(** ** Flushing one tier *)

Lemma copy_items_max_size l s :
  max_size (foldl (λ s kv, setitem kv.1 kv.2 s) s l) = max_size s.
Proof. revert s; induction l as [|kv l IH]; intros s; simpl; [done|]. by rewrite IH. Qed.

Lemma copy_items_mapper (l : list (string * bytes)) s :
  NoDup l.*1 →
  mapper (foldl (λ s kv, setitem kv.1 kv.2 s) s l) = list_to_map l ∪ mapper s.
Proof.
  revert s; induction l as [|[k v] l IH]; intros s Hnd; simpl.
  - by rewrite (left_id_L ∅ (∪)).
  - simpl in Hnd. inversion Hnd as [|? ? Hk Hnd']; subst. rewrite IH by done. simpl.
    apply map_eq; intros i. rewrite !lookup_union.
    destruct (decide (k = i)) as [->|Hne].
    + rewrite !lookup_insert_eq.
      rewrite (not_elem_of_list_to_map_1 l i Hk). by destruct (mapper s !! i).
    + by rewrite !lookup_insert_ne.
Qed.

Lemma delete_keys_max_size ks c :
  max_size (foldl (λ c key, delitem key c) c ks) = max_size c.
Proof. revert c; induction ks as [|k ks IH]; intros c; simpl; [done|]. by rewrite IH. Qed.

Lemma delete_keys_lookup ks c (k : string) :
  mapper (foldl (λ c key, delitem key c) c ks) !! k
  = if decide (k ∈ ks) then None else mapper c !! k.
Proof.
  revert c; induction ks as [|k0 ks IH]; intros c; cbn [foldl].
  - rewrite decide_False; [done|]. by intros ?%elem_of_nil.
  - rewrite IH. cbn [delitem mapper].
    destruct (decide (k = k0)) as [->|Hne].
    + rewrite lookup_delete_eq, (decide_True _ _ (list_elem_of_here k0 ks)).
      by destruct (decide (k0 ∈ ks)).
    + rewrite lookup_delete_ne by done.
      destruct (decide (k ∈ ks)) as [Hin|Hin].
      * by rewrite (decide_True _ _ (list_elem_of_further k k0 ks Hin)).
      * rewrite decide_False; [done|].
        by intros [?|?]%elem_of_cons.
Qed.

(** Every key [flush_cache] deletes from a tier is held by the tier, and is
    deleted once: [del cache[key]] cannot raise. *)
Lemma flush_keys_present cache :
  NoDup (items cache).*1 ∧
  ∀ key, key ∈ (items cache).*1 → is_Some (mapper cache !! key).
Proof.
  split; [apply NoDup_fst_map_to_list|].
  intros key [[k v] [-> Hin]]%list_elem_of_fmap. simpl.
  apply elem_of_map_to_list in Hin. eauto.
Qed.

Lemma flush_tier_cache cache st : (flush_tier cache st).1 = emptied cache.
Proof.
  unfold flush_tier; simpl.
  set (c' := foldl _ _ _).
  assert (max_size c' = max_size cache) as Hmax by apply delete_keys_max_size.
  assert (mapper c' = ∅) as Hemp.
  { apply map_eq; intros k. unfold c'. rewrite delete_keys_lookup, lookup_empty.
    case_decide as Hin; [done|].
    destruct (mapper cache !! k) as [v|] eqn:Hk; [|done].
    exfalso; apply Hin. apply list_elem_of_fmap. exists (k, v).
    split; [done|]. by apply elem_of_map_to_list. }
  destruct c' as [m c]; simpl in *; subst. reflexivity.
Qed.

Lemma flush_tier_storage cache st :
  (flush_tier cache st).2 = mk (mapper cache ∪ mapper st) (max_size st).
Proof.
  unfold flush_tier; simpl.
  set (s' := foldl _ _ _).
  assert (max_size s' = max_size st) as Hmax by apply copy_items_max_size.
  assert (mapper s' = mapper cache ∪ mapper st) as Hm.
  { unfold s'. rewrite copy_items_mapper by apply NoDup_fst_map_to_list.
    unfold items. by rewrite list_to_map_to_list. }
  destruct s' as [m c]; simpl in *; subst. reflexivity.
Qed.

(** ** Flushing the chain *)

Lemma flush_chain_spec chain st :
  flush_chain chain st
  = (emptied <$> chain, mk (flushed_into chain (mapper st)) (max_size st)).
Proof.
  revert st; induction chain as [|cache rest IH]; intros st; cbn [flush_chain].
  - by destruct st.
  - pose proof (flush_tier_cache cache st) as Hc.
    pose proof (flush_tier_storage cache st) as Hs.
    destruct (flush_tier cache st) as [c' s']. cbn [fst snd] in Hc, Hs.
    subst c' s'. rewrite IH. reflexivity.
Qed.

Lemma flush_cache_spec w :
  flush_cache w
  = (World (mk (flushed_into (cache_chain w) (mapper (storage w)))
               (max_size (storage w)))
           (emptied <$> cache_chain w), Ok tt).
Proof. unfold flush_cache. by rewrite flush_chain_spec. Qed.

Lemma flushed_into_app pre post m :
  flushed_into (pre ++ post) m = flushed_into post (flushed_into pre m).
Proof. apply foldl_app. Qed.

(** A key no tier holds keeps its backend value. *)
Lemma flushed_into_absent chain m (key : string) :
  Forall (λ c, mapper c !! key = None) chain →
  flushed_into chain m !! key = m !! key.
Proof.
  revert m; induction chain as [|c rest IH]; intros m Hall; simpl; [done|].
  apply Forall_cons in Hall as [Hc Hrest]. rewrite IH by done.
  by rewrite lookup_union, Hc, (left_id_L None _).
Qed.

(** The backend ends up with the value of the last tier holding the key. *)
Lemma flushed_into_last pre c post m (key : string) b :
  mapper c !! key = Some b →
  Forall (λ c', mapper c' !! key = None) post →
  flushed_into (pre ++ c :: post) m !! key = Some b.
Proof.
  intros Hc Hpost. rewrite flushed_into_app; simpl.
  rewrite flushed_into_absent by done.
  rewrite lookup_union, Hc.
  destruct (flushed_into pre m !! key); reflexivity.
Qed.

(** Whatever the backend holds for a key after a flush was held, before it,
    by a tier or by the backend. *)
Lemma flushed_into_origin chain m (key : string) b :
  flushed_into chain m !! key = Some b →
  (∃ c, c ∈ chain ∧ mapper c !! key = Some b) ∨ m !! key = Some b.
Proof.
  revert m; induction chain as [|c rest IH]; intros m; simpl; [by right|].
  intros [[c' [Hin Hc']]|H]%IH.
  - left. exists c'. split; [by right|done].
  - rewrite lookup_union in H. destruct (mapper c !! key) as [v|] eqn:Hc.
    + left. exists c. split; [by left|].
      destruct (m !! key); cbv in H; congruence.
    + right. by rewrite (left_id_L None _) in H.
Qed.

Lemma flushed_into_empty chain m :
  Forall (λ c, mapper c = ∅) chain → flushed_into chain m = m.
Proof.
  revert m; induction chain as [|c rest IH]; intros m Hall; simpl; [done|].
  apply Forall_cons in Hall as [Hc Hrest].
  by rewrite Hc, (left_id_L ∅ (∪)), IH.
Qed.

Lemma flushed_into_held chain m (key : string) :
  Exists (λ c, is_Some (mapper c !! key)) chain →
  ∃ c b, c ∈ chain ∧ mapper c !! key = Some b ∧ flushed_into chain m !! key = Some b.
Proof.
  revert m; induction chain as [|c0 rest IH]; intros m Hex.
  - by apply Exists_nil in Hex.
  - destruct (decide (Exists (λ c, is_Some (mapper c !! key)) rest)) as [Hrest|Hrest].
    + destruct (IH (mapper c0 ∪ m) Hrest) as (c & b & Hin & Hc & Hb).
      exists c, b. split; [by right|done].
    + apply Exists_cons in Hex as [[b Hb]|Hex]; [|done].
      exists c0, b. split; [by left|]. split; [done|].
      apply (flushed_into_last [] c0 rest m key b Hb).
      apply Forall_forall. intros c' Hc'.
      destruct (mapper c' !! key) eqn:E; [|done].
      exfalso; apply Hrest. apply Exists_exists. exists c'. split; [done|].
      rewrite E; eauto.
Qed.

(** ** The cache chain *)

Lemma write_to_cache_chain_first_fit key b pre c post :
  Forall (λ t, has_space t (length b) = false) pre →
  has_space c (length b) = true →
  write_to_cache_chain key b (pre ++ c :: post)
  = (pre ++ setitem key b c :: post, true).
Proof.
  intros Hpre Hc. induction Hpre as [|t pre Ht _ IH]; simpl.
  - by rewrite Hc.
  - by rewrite Ht, IH.
Qed.

Lemma write_to_cache_chain_no_fit key b chain :
  Forall (λ t, has_space t (length b) = false) chain →
  write_to_cache_chain key b chain = (chain, false).
Proof.
  intros Hall. induction Hall as [|t chain Ht _ IH]; simpl; [done|].
  by rewrite Ht, IH.
Qed.

(** [write_bytes_with_caching], with the monad unfolded. *)
Lemma write_bytes_with_caching_unfold key b w :
  write_bytes_with_caching key b w =
  match cache_chain w with
  | [] => (World (setitem key b (storage w)) (cache_chain w), Ok tt)
  | _ :: _ =>
      let '(chain1, ok1) := write_to_cache_chain key b (cache_chain w) in
      if ok1 then (World (storage w) chain1, Ok tt)
      else
        let w2 := (flush_cache (World (storage w) chain1)).1 in
        let '(chain2, ok2) := write_to_cache_chain key b (cache_chain w2) in
        (World (storage w2) chain2, if ok2 then Ok tt else Raise CachingFailed)
  end.
Proof.
  unfold write_bytes_with_caching, mbind, M_bind, get_chain, write_to_cache,
    write_to_storage, mret, M_ret, raise.
  destruct w as [st [|c rest]]; simpl; [done|].
  destruct (has_space c (length b)); simpl; [done|].
  destruct (write_to_cache_chain key b rest) as [rest' ok1]; simpl.
  destruct ok1; simpl; [done|].
  rewrite flush_cache_spec; simpl.
  destruct (has_space (emptied c) (length b)); simpl; [done|].
  destruct (write_to_cache_chain key b _) as [ch2 ok2]; simpl.
  by destruct ok2.
Qed.

(** C6. Cache-chain placement: with an empty chain the bytes go straight to
    the backend; otherwise they are stored in the first tier, in chain
    order, that has space for them, and neither the other tiers nor the
    backend change. *)
Theorem cache_chain_placement key b w :
  (cache_chain w = [] →
   write_bytes_with_caching key b w
   = (World (setitem key b (storage w)) [], Ok tt))
  ∧ (∀ pre c post,
       cache_chain w = pre ++ c :: post →
       Forall (λ t, has_space t (length b) = false) pre →
       has_space c (length b) = true →
       write_bytes_with_caching key b w
       = (World (storage w) (pre ++ setitem key b c :: post), Ok tt)).
Proof.
  split.
  - intros Hchain. rewrite write_bytes_with_caching_unfold. by rewrite Hchain.
  - intros pre c post Hchain Hpre Hc.
    rewrite write_bytes_with_caching_unfold, Hchain.
    rewrite write_to_cache_chain_first_fit by done.
    by destruct pre.
Qed.

(** C7. Flush contract: the flush never fails; every key held by a tier is
    on the backend afterwards, with the value of the last tier of the chain
    holding it (later copies overwrite earlier ones and the backend's own
    value); keys held by no tier keep their backend value; every tier is
    left without keys and with [used_space = 0]; flushing a chain of empty
    tiers changes nothing. *)
Theorem flush_cache_contract w :
  (flush_cache w).2 = Ok tt
  ∧ (∀ pre c post key b,
       cache_chain w = pre ++ c :: post →
       mapper c !! key = Some b →
       Forall (λ c', mapper c' !! key = None) post →
       mapper (storage (flush_cache w).1) !! key = Some b)
  ∧ (∀ c key,
       c ∈ cache_chain w → is_Some (mapper c !! key) →
       is_Some (mapper (storage (flush_cache w).1) !! key))
  ∧ (∀ key,
       Forall (λ c, mapper c !! key = None) (cache_chain w) →
       mapper (storage (flush_cache w).1) !! key = mapper (storage w) !! key)
  ∧ length (cache_chain (flush_cache w).1) = length (cache_chain w)
  ∧ Forall (λ c, items c = [] ∧ used_space c = 0) (cache_chain (flush_cache w).1)
  ∧ (Forall (λ c, mapper c = ∅) (cache_chain w) → (flush_cache w).1 = w).
Proof.
  rewrite flush_cache_spec; cbn [fst snd storage cache_chain mapper]. repeat split.
  - intros pre c post key b -> Hc Hpost. by apply flushed_into_last.
  - intros c key Hin Hsome.
    destruct (flushed_into_held (cache_chain w) (mapper (storage w)) key)
      as (c' & b & _ & _ & ->); [|eauto].
    apply Exists_exists. eauto.
  - intros key Hall. by apply flushed_into_absent.
  - by rewrite length_fmap.
  - apply Forall_fmap, Forall_forall. intros c _. simpl.
    split; [apply items_emptied|apply used_space_emptied].
  - intros Hall. destruct w as [st chain]; cbn [storage cache_chain] in *.
    rewrite flushed_into_empty, emptied_chain_id by done. by destruct st.
Qed.

(** X22. Capacity exhaustion of one payload: when the chain is not empty
    and the payload fits in no tier even once the tier is empty,
    [write_bytes_with_caching] raises the caching failure, and the world it
    leaves is the one a bare flush leaves: nothing of this payload is on the
    backend or in a tier. *)
Theorem capacity_exhaustion key b w :
  cache_chain w ≠ [] →
  Forall (λ c, has_space (emptied c) (length b) = false) (cache_chain w) →
  write_bytes_with_caching key b w = ((flush_cache w).1, Raise CachingFailed)
  ∧ (mapper (storage w) !! key = None →
     Forall (λ c, mapper c !! key = None) (cache_chain w) →
     mapper (storage (write_bytes_with_caching key b w).1) !! key = None).
Proof.
  intros Hne Hall.
  assert (write_bytes_with_caching key b w = ((flush_cache w).1, Raise CachingFailed)) as Heq.
  { rewrite write_bytes_with_caching_unfold.
    destruct (cache_chain w) as [|c rest] eqn:Hchain; [done|].
    rewrite write_to_cache_chain_no_fit; cycle 1.
    { eapply Forall_impl; [exact Hall|]. intros t. apply has_space_emptied_false. }
    cbv zeta iota. rewrite !flush_cache_spec. cbn [fst cache_chain storage].
    rewrite write_to_cache_chain_no_fit; cycle 1.
    { by apply Forall_fmap. }
    destruct w; simpl in *; by subst. }
  split; [done|].
  intros Hst Hch. rewrite Heq, flush_cache_spec; simpl.
  by rewrite flushed_into_absent.
Qed.

(** ** The chunk generator *)

Lemma chunks_from_nil fuel c : chunks_from fuel c [] = [].
Proof. by destruct fuel. Qed.

Lemma chunks_from_concat fuel c b :
  1 ≤ c → length b ≤ fuel → concat (chunks_from fuel c b) = b.
Proof.
  intros Hc. revert b; induction fuel as [|fuel IH]; intros b Hlen.
  - destruct b; [done|simpl in Hlen; lia].
  - destruct b as [|x b]; [done|]. cbn [chunks_from concat].
    rewrite IH; [apply take_drop|].
    rewrite length_drop. simpl in *. lia.
Qed.

Lemma chunks_from_bounds fuel c b :
  1 ≤ c → Forall (λ s, 1 ≤ length s ≤ c) (chunks_from fuel c b).
Proof.
  intros Hc. revert b; induction fuel as [|fuel IH]; intros b; [constructor|].
  destruct b as [|x b]; [constructor|]. cbn [chunks_from].
  constructor; [|apply IH].
  rewrite length_take. simpl. lia.
Qed.

Lemma chunks_from_non_final_full fuel c b :
  non_final_full c (chunks_from fuel c b).
Proof.
  unfold non_final_full.
  revert b; induction fuel as [|fuel IH]; intros b; [constructor|].
  destruct b as [|x b]; [constructor|]. cbn [chunks_from].
  specialize (IH (drop c (x :: b))).
  destruct (chunks_from fuel c (drop c (x :: b))) as [|r rs] eqn:Hrest;
    [constructor|].
  change (removelast (take c (x :: b) :: r :: rs))
    with (take c (x :: b) :: removelast (r :: rs)).
  constructor; [|done].
  rewrite length_take. apply Nat.min_l.
  destruct (decide (c ≤ length (x :: b))) as [|Hlt]; [done|].
  rewrite drop_ge, chunks_from_nil in Hrest by lia. done.
Qed.

Lemma generate_chunks_concat b c lcnb :
  1 ≤ c → concat (generate_chunks b c lcnb) = b.
Proof.
  intros Hc. destruct b as [|x b]; [done|]. unfold generate_chunks.
  destruct lcnb as [n|]; [destruct (decide (n < c))|];
    try (apply chunks_from_concat; [done|lia]).
  cbn [concat]. rewrite chunks_from_concat; [apply take_drop|done|].
  rewrite length_drop. lia.
Qed.

Lemma generate_chunks_bounds b c lcnb :
  1 ≤ c → Forall (λ s, 1 ≤ length s ≤ c) (generate_chunks b c lcnb).
Proof.
  intros Hc. destruct b as [|x b]; [constructor|]. unfold generate_chunks.
  destruct lcnb as [n|]; [destruct (decide (n < c))|];
    try (by apply chunks_from_bounds).
  constructor; [|by apply chunks_from_bounds].
  rewrite length_take. simpl. lia.
Qed.

Lemma generate_chunks_nonempty b c lcnb :
  b ≠ [] → generate_chunks b c lcnb ≠ [].
Proof.
  destruct b as [|x b]; [done|]. intros _. unfold generate_chunks.
  destruct lcnb as [n|]; [destruct (decide (n < c))|];
    cbn [length chunks_from]; discriminate.
Qed.

Lemma yielded_slices_concat c lcnb batch :
  1 ≤ c → concat (yielded_slices c lcnb batch) = concat batch.
Proof.
  intros Hc. revert lcnb; induction batch as [|b batch IH]; intros lcnb; [done|].
  cbn [yielded_slices concat]. by rewrite concat_app, IH, generate_chunks_concat.
Qed.

Lemma yielded_slices_bounds c lcnb batch :
  1 ≤ c → Forall (λ s, 1 ≤ length s ≤ c) (yielded_slices c lcnb batch).
Proof.
  intros Hc. revert lcnb; induction batch as [|b batch IH]; intros lcnb;
    [constructor|].
  cbn [yielded_slices]. apply Forall_app. split; [|apply IH].
  by apply generate_chunks_bounds.
Qed.

Lemma fill_or_append_concat c acc chunk :
  concat (fill_or_append c acc chunk) = concat acc ++ chunk.
Proof.
  unfold fill_or_append. destruct (last acc) as [prev|] eqn:Hlast.
  - apply last_Some in Hlast as [acc' ->].
    destruct (decide (c ≤ length prev)).
    + by rewrite concat_app; simpl; rewrite (right_id_L [] (++)).
    + rewrite removelast_last, !concat_app. simpl.
      by rewrite !(right_id_L [] (++)), (assoc_L (++)).
  - by rewrite concat_app; simpl; rewrite (right_id_L [] (++)).
Qed.

Lemma run_test_steps_concat c st slices :
  concat (foldl (run_test_step c) st slices).1 = concat st.1 ++ concat slices.
Proof.
  revert st; induction slices as [|s slices IH]; intros st; simpl.
  - by rewrite (right_id_L [] (++)).
  - rewrite IH. simpl. by rewrite fill_or_append_concat, (assoc_L (++)).
Qed.

Lemma run_test_steps_lcnb c st slices :
  (foldl (run_test_step c) st slices).2
  = match last slices with Some s => Some (length s) | None => st.2 end.
Proof.
  revert st; induction slices as [|s slices IH]; intros st; [done|].
  cbn [foldl]. rewrite IH. destruct slices as [|s' slices']; [done|].
  rewrite last_cons_cons.
  destruct (last (s' :: slices')) eqn:E; [done|].
  by apply last_None in E.
Qed.

(** [run_test] merges exactly the slices listed by [yielded_slices]. *)
Lemma run_test_yielded c st batch :
  foldl (run_test_call c) st batch
  = foldl (run_test_step c) st (yielded_slices c st.2 batch).
Proof.
  revert st; induction batch as [|b batch IH]; intros st; [done|].
  cbn [foldl yielded_slices]. rewrite foldl_app, IH. unfold run_test_call at 2.
  by rewrite run_test_steps_lcnb.
Qed.

Lemma run_test_concat c batch :
  1 ≤ c → concat (run_test c batch) = concat batch.
Proof.
  intros Hc. unfold run_test.
  rewrite run_test_yielded, run_test_steps_concat. simpl.
  by apply yielded_slices_concat.
Qed.

Lemma non_final_full_tail c chunks :
  non_final_full c chunks → non_final_full c (tail chunks).
Proof.
  unfold non_final_full. destruct chunks as [|x [|y r]]; simpl; try done.
  by intros [_ H]%Forall_cons.
Qed.

(** The tables of tests/test_generate_chunks.py. *)
Example test_perfect_fit :
  run_test 1 (B <$> ["1"]) = B <$> ["1"]
  ∧ run_test 1 (B <$> ["1"; "2"]) = B <$> ["1"; "2"]
  ∧ run_test 1 (B <$> ["1"; "2"; "3"]) = B <$> ["1"; "2"; "3"]
  ∧ run_test 1 (B <$> ["1234"]) = B <$> ["1"; "2"; "3"; "4"]
  ∧ run_test 4 (B <$> ["1234"]) = B <$> ["1234"]
  ∧ run_test 4 (B <$> ["1234"; "5678"]) = B <$> ["1234"; "5678"]
  ∧ run_test 4 (B <$> ["12345678"]) = B <$> ["1234"; "5678"]
  ∧ run_test 10 (B <$> ["12"; "3456"; "78"; "9"; "0"]) = B <$> ["1234567890"].
Proof. repeat split; vm_compute; reflexivity. Qed.

Example test_partial_fit :
  run_test 1 (B <$> [""]) = []
  ∧ run_test 2 (B <$> ["1"]) = B <$> ["1"]
  ∧ run_test 2 (B <$> ["123"]) = B <$> ["12"; "3"]
  ∧ run_test 4 (B <$> ["123"]) = B <$> ["123"]
  ∧ run_test 4 (B <$> ["1234567"]) = B <$> ["1234"; "567"]
  ∧ run_test 8 (B <$> ["1"; "2"; "3"; "4"; "5"; "6"; "7"]) = B <$> ["1234567"].
Proof. repeat split; vm_compute; reflexivity. Qed.

(** The generator scenarios of the design document. *)
Example generate_chunks_scenarios :
  generate_chunks (B "12345678") 4 None = B <$> ["1234"; "5678"]
  ∧ generate_chunks (B "123") 4 None = B <$> ["123"]
  ∧ generate_chunks (B "89") 4 (Some 3) = B <$> ["8"; "9"].
Proof. repeat split; vm_compute; reflexivity. Qed.

(** C2, as stated, fails: with the length of the last slice threaded
    forward, a continuation slice can be cut for a chunk that is already
    full, and the chunk it then starts is overfilled by the next slice.
    Chunk size 2, inputs ["1"], ["2"], ["34567"]: the merged chunks are
    ["12"], ["345"], ["67"], and the non-final ["345"] has three bytes. *)
Lemma merged_chunks_not_full :
  run_test 2 (B <$> ["1"; "2"; "34567"]) = B <$> ["12"; "345"; "67"]
  ∧ ¬ non_final_full 2 (run_test 2 (B <$> ["1"; "2"; "34567"])).
Proof.
  split; [vm_compute; reflexivity|].
  unfold non_final_full. vm_compute. intros H.
  inversion H as [|? ? _ H2]; inversion H2 as [|? ? H3 _]; discriminate H3.
Qed.

(** C2, amended.  For every chunk size [c >= 1] and every batch of byte
    buffers: the slices yielded over the successive calls, and the chunks
    they are merged into, concatenate to the concatenation of the inputs;
    every slice has between 1 and [c] bytes; within one call every slice
    other than the first and the last has exactly [c] bytes, and so has the
    first when the call has no prior partial chunk, that is when
    [last_chunk_num_bytes] is absent or at least [c]; a continuation slice
    has [min (c - last_chunk_num_bytes) (len input)] bytes; empty input
    yields nothing. *)
Theorem chunk_generator_reconstruction c batch :
  1 ≤ c →
  concat (yielded_slices c None batch) = concat batch
  ∧ concat (run_test c batch) = concat batch
  ∧ Forall (λ s, 1 ≤ length s ≤ c) (yielded_slices c None batch)
  ∧ (∀ b lcnb, non_final_full c (tail (generate_chunks b c lcnb)))
  ∧ (∀ b, non_final_full c (generate_chunks b c None))
  ∧ (∀ b n, c ≤ n → non_final_full c (generate_chunks b c (Some n)))
  ∧ (∀ b n, n < c → b ≠ [] →
       length <$> head (generate_chunks b c (Some n))
       = Some (Nat.min (c - n) (length b)))
  ∧ (∀ lcnb, generate_chunks [] c lcnb = []).
Proof.
  intros Hc. split; [by apply yielded_slices_concat|].
  split; [by apply run_test_concat|].
  split; [by apply yielded_slices_bounds|].
  assert (∀ b, non_final_full c (generate_chunks b c None)) as Hnone.
  { intros [|x b]; [constructor|]. apply chunks_from_non_final_full. }
  split; [|split; [done|split; [|split; [|done]]]].
  - intros [|x b] lcnb; [constructor|]. unfold generate_chunks.
    destruct lcnb as [n|]; [destruct (decide (n < c))|];
      [cbn [tail]|apply non_final_full_tail..];
      apply chunks_from_non_final_full.
  - intros [|x b] n Hn; [constructor|]. unfold generate_chunks.
    rewrite decide_False by lia. apply chunks_from_non_final_full.
  - intros [|x b] n Hn Hb; [done|]. unfold generate_chunks.
    rewrite decide_True by done. simpl. by rewrite length_take.
Qed.

Lemma chunk_generator_reconstruction_witness :
  1 ≤ 2
  ∧ concat (run_test 2 (B <$> ["1"; "2"; "34567"]))
    = concat (B <$> ["1"; "2"; "34567"]).
Proof.
  split; [lia|].
  refine (proj1 (proj2 (chunk_generator_reconstruction 2 _ _))). lia.
Defined.

(** ** Concrete runs of the cache chain *)

Lemma cache_chain_placement_witness :
  let w := World (mk ∅ None) [mk ∅ (Some 2); mk ∅ (Some 10)] in
  write_bytes_with_caching "tensor/c0" (B "abc") w
  = (World (mk ∅ None)
       [mk ∅ (Some 2); setitem "tensor/c0" (B "abc") (mk ∅ (Some 10))], Ok tt).
Proof.
  intros w.
  apply (proj2 (cache_chain_placement "tensor/c0" (B "abc") w)
           [mk ∅ (Some 2)] (mk ∅ (Some 10)) []).
  - reflexivity.
  - repeat constructor.
  - vm_compute; reflexivity.
Defined.

Lemma flush_cache_contract_witness :
  let w := World (mk {["k" := B "old"]} None)
             [mk {["k" := B "new"]} (Some 8); mk {["j" := B "x"]} (Some 8)] in
  mapper (storage (flush_cache w).1) !! "k" = Some (B "new").
Proof.
  intros w.
  apply (proj1 (proj2 (flush_cache_contract w))
           [] (mk {["k" := B "new"]} (Some 8)) [mk {["j" := B "x"]} (Some 8)]).
  - reflexivity.
  - vm_compute; reflexivity.
  - repeat constructor.
Defined.

Lemma capacity_exhaustion_witness :
  let w := World (mk ∅ None) [mk {["k" := B "x"]} (Some 2); mk ∅ (Some 1)] in
  write_bytes_with_caching "tensor/c0" (B "abc") w
  = (World (mk {["k" := B "x"]} None) [mk ∅ (Some 2); mk ∅ (Some 1)],
     Raise CachingFailed).
Proof.
  intros w.
  assert ((flush_cache w).1
          = World (mk {["k" := B "x"]} None) [mk ∅ (Some 2); mk ∅ (Some 1)]) as <-
    by (vm_compute; reflexivity).
  apply (capacity_exhaustion "tensor/c0" (B "abc") w).
  - discriminate.
  - repeat constructor.
Defined.

(** ** Shape normalization *)

Lemma strip_trailing_ones_split s :
  ∃ k, s = strip_trailing_ones s ++ replicate k 1.
Proof.
  induction s as [|d r [k IH]]; [by exists 0|]. cbn [strip_trailing_ones].
  destruct (strip_trailing_ones r) as [|d' r'] eqn:Hr.
  - destruct (decide (d = 1)) as [->|].
    + exists (S k). simpl in *. by rewrite IH.
    + exists k. simpl in *. by rewrite IH.
  - exists k. simpl in *. by rewrite IH at 1.
Qed.

Lemma strip_trailing_ones_last s : last (strip_trailing_ones s) ≠ Some 1.
Proof.
  induction s as [|d r IH]; [done|]. cbn [strip_trailing_ones].
  destruct (strip_trailing_ones r) as [|d' r'] eqn:Hr.
  - destruct (decide (d = 1)); [done|]. simpl. congruence.
  - by rewrite last_cons_cons.
Qed.

Lemma num_elements_app s t : num_elements (s ++ t) = num_elements s * num_elements t.
Proof. induction s as [|d s IH]; simpl; [lia|]. rewrite IH. lia. Qed.

Lemma num_elements_ones k : num_elements (replicate k 1) = 1.
Proof. induction k as [|k IH]; simpl; [done|]. rewrite IH. lia. Qed.

Lemma normalize_shape_split s :
  2 ≤ length s → ∃ k, s = normalize_shape s ++ replicate k 1.
Proof.
  destruct s as [|d0 [|d1 r]]; simpl; try lia. intros _.
  destruct (strip_trailing_ones_split r) as [k Hk]. exists k.
  by rewrite <- Hk.
Qed.

(** The normalized shape and the shape differ by trailing axes of size 1
    only. *)
Lemma normalize_shape_pad s :
  ∃ k k', s ++ replicate k' 1 = normalize_shape s ++ replicate k 1.
Proof.
  destruct s as [|d0 [|d1 r]]; [by exists 0, 2|by exists 0, 1|].
  destruct (normalize_shape_split (d0 :: d1 :: r)) as [k Hk]; [simpl; lia|].
  exists k, 0. cbn [replicate]. by rewrite (right_id_L [] (++)).
Qed.

Lemma normalize_shape_rank s :
  2 ≤ length (normalize_shape s)
  ∧ (length (normalize_shape s) = 2 ∨ last (normalize_shape s) ≠ Some 1).
Proof.
  destruct s as [|d0 [|d1 r]]; [split; [done|by left]..|].
  simpl. split; [lia|].
  pose proof (strip_trailing_ones_last r) as Hlast.
  destruct (strip_trailing_ones r) as [|d' r']; [by left|right].
  by rewrite !last_cons_cons.
Qed.

Lemma last_app_ones (t : list nat) j : 0 < j → last (t ++ replicate j 1) = Some 1.
Proof.
  destruct j as [|j]; [lia|]. intros _.
  by rewrite replicate_S_end, (assoc_L (++)), last_snoc.
Qed.

(** No shape of rank at least 2 that differs from [s] by trailing axes of
    size 1 only is shorter than the normalized one. *)
Lemma normalize_shape_smallest s t k k' :
  s ++ replicate k' 1 = t ++ replicate k 1 → 2 ≤ length t →
  length (normalize_shape s) ≤ length t.
Proof.
  intros Hs Ht.
  destruct (normalize_shape_rank s) as [_ [H2|Hlast]]; [lia|].
  destruct (normalize_shape_pad s) as (k1 & k1' & Hpad).
  remember (normalize_shape s) as n eqn:Hn. clear Hn.
  destruct (decide (length n ≤ length t)) as [|Hgt]; [done|].
  exfalso; apply Hlast.
  assert (n ++ replicate (k1 + k') 1 = t ++ replicate (k + k1') 1) as E.
  { rewrite !replicate_add, !(assoc_L (++)), <- Hpad, <- Hs.
    rewrite <- !(assoc_L (++)), <- !replicate_add. do 2 f_equal. lia. }
  assert (length n + (k1 + k') = length t + (k + k1')) as El.
  { apply (f_equal length) in E. by rewrite !length_app, !length_replicate in E. }
  apply (f_equal (take (length n))) in E.
  rewrite take_app_length, take_app_ge, take_replicate in E by lia.
  rewrite E. apply last_app_ones. lia.
Qed.

Lemma normalize_shape_ones s :
  Forall (λ d, d = 1) s → normalize_shape s = [1; 1].
Proof.
  intros Hall. destruct s as [|d0 [|d1 r]]; [done|..].
  { by apply Forall_cons in Hall as [-> _]. }
  apply Forall_cons in Hall as [-> Hall]. apply Forall_cons in Hall as [-> Hall].
  cbn [normalize_shape]. do 2 f_equal.
  induction Hall as [|d r -> _ IH]; [done|].
  cbn [strip_trailing_ones]. rewrite IH. by rewrite decide_True.
Qed.

Lemma normalize_shape_num_elements s :
  num_elements (normalize_shape s) = num_elements s.
Proof.
  destruct (normalize_shape_pad s) as (k & k' & Hpad).
  apply (f_equal num_elements) in Hpad.
  rewrite !num_elements_app, !num_elements_ones in Hpad. lia.
Qed.

(** The normalizer is a total reshape: it never fails and changes neither
    the dtype, nor the element count, nor the buffer. *)
Lemma normalize_is_reshape a batched :
  ∃ a',
    normalize_and_batchify_shape a batched = Ok a'
    ∧ a' = Array (dtype_of a)
                 (normalize_shape (batchify_shape batched (shape a))) (buffer a)
    ∧ num_elements (shape a') = num_elements (shape a)
    ∧ flatten a' = flatten a.
Proof.
  unfold normalize_and_batchify_shape, reshape.
  set (s := batchify_shape batched (shape a)).
  assert (num_elements s = num_elements (shape a)) as Hs.
  { unfold s, batchify_shape. destruct batched; simpl; lia. }
  assert (num_elements (normalize_shape s) = num_elements (shape a)) as Hn
    by (by rewrite normalize_shape_num_elements).
  rewrite decide_True by done.
  eexists. split; [reflexivity|]. split; [reflexivity|]. split; [done|].
  unfold flatten; simpl. by rewrite Hn.
Qed.

(** The table of tests/test_utils.py. *)
Example test_normalize_and_batchify_shape :
  (λ s, normalize_shape (batchify_shape true s)) <$>
    [[1; 100]; [100; 100]; [10; 224; 224; 3]; [10; 3; 224; 224];
     [10; 3; 224; 224; 1]; [10; 3; 224; 224; 1; 1; 1; 1];
     [1; 1; 1; 1; 1; 1; 1]; [1; 1]]
  = [[1; 100]; [100; 100]; [10; 224; 224; 3]; [10; 3; 224; 224];
     [10; 3; 224; 224]; [10; 3; 224; 224]; [1; 1]; [1; 1]]
  ∧ (λ s, normalize_shape (batchify_shape false s)) <$>
      [[1]; [100]; [100; 100]; [3; 224; 224; 1; 1; 1; 1];
       [10; 3; 224; 224; 1; 1; 1; 1]; [1; 1]; [1; 1; 1; 1; 1; 1; 1]]
    = [[1; 1]; [1; 100]; [1; 100; 100]; [1; 3; 224; 224];
       [1; 10; 3; 224; 224]; [1; 1]; [1; 1]].
Proof. split; reflexivity. Qed.

(** C9. Shape normalization.  On every array the normalizer succeeds and
    returns a reshape: dtype, flattened contents and element count are
    those of the input.  The result shape is the input shape, with a
    leading axis of size 1 when [batched] is false, up to trailing axes of
    size 1: some are dropped, or, below rank 2, added.  It always has rank
    at least 2, and it is the shortest such shape: beyond rank 2 it does not
    end in 1, and an all-ones shape gives [(1, 1)]. *)
Theorem normalize_contract a batched :
  ∃ a',
    normalize_and_batchify_shape a batched = Ok a'
    ∧ flatten a' = flatten a
    ∧ (well_formed a → well_formed a')
    ∧ (∃ k k', (if batched then shape a else 1 :: shape a) ++ replicate k' 1
               = shape a' ++ replicate k 1)
    ∧ (2 ≤ length (if batched then shape a else 1 :: shape a) →
       ∃ k, (if batched then shape a else 1 :: shape a)
            = shape a' ++ replicate k 1)
    ∧ (batched = false → head (shape a') = Some 1)
    ∧ 2 ≤ length (shape a')
    ∧ (length (shape a') = 2 ∨ last (shape a') ≠ Some 1)
    ∧ (∀ t k k',
         (if batched then shape a else 1 :: shape a) ++ replicate k' 1
         = t ++ replicate k 1 →
         2 ≤ length t → length (shape a') ≤ length t)
    ∧ (Forall (λ d, d = 1) (shape a) → shape a' = [1; 1]).
Proof.
  destruct (normalize_is_reshape a batched) as (a' & Hok & -> & Hn & Hflat).
  exists (Array (dtype_of a)
            (normalize_shape (batchify_shape batched (shape a))) (buffer a)).
  change (if batched then shape a else 1 :: shape a)
    with (batchify_shape batched (shape a)).
  set (s := batchify_shape batched (shape a)) in *.
  cbn [shape] in *.
  split; [done|]. split; [done|].
  split; [unfold well_formed; simpl; by rewrite Hn|].
  split; [apply normalize_shape_pad|].
  split; [apply normalize_shape_split|].
  split.
  { intros ->. unfold s; simpl. by destruct (shape a) as [|d r]. }
  destruct (normalize_shape_rank s) as [H2 Hlast].
  split; [done|]. split; [done|]. split.
  - intros t k k'. apply normalize_shape_smallest.
  - intros Hall. apply normalize_shape_ones.
    unfold s, batchify_shape. destruct batched; [done|]. by constructor.
Qed.

Lemma normalize_contract_witness :
  ∃ a',
    normalize_and_batchify_shape (Array uint8 [1] (B "a")) true = Ok a'
    ∧ well_formed a'
    ∧ shape a' = [1; 1].
Proof.
  destruct (normalize_contract (Array uint8 [1] (B "a")) true)
    as (a' & Hok & _ & Hwf & _ & _ & _ & _ & _ & _ & Hones).
  exists a'. split; [exact Hok|]. split.
  - apply Hwf. reflexivity.
  - apply Hones. repeat constructor.
Defined.

(** ** Keys *)

Lemma path_join_inj a b1 b2 :
  starts_with_slash b1 = false → starts_with_slash b2 = false →
  path_join a b1 = path_join a b2 → b1 = b2.
Proof.
  unfold path_join. intros -> ->.
  destruct (bool_decide (a = "") || ends_with_slash a); intros H.
  - by apply (inj (String.app a)) in H.
  - apply (inj (String.app a)) in H. by apply (inj (String.app "/")) in H.
Qed.

Lemma chunk_key_inj key i j : chunk_key key i = chunk_key key j → i = j.
Proof.
  unfold chunk_key. intros H. apply path_join_inj in H; [|done..].
  apply (inj (String.app "c")) in H. by apply (inj pretty) in H.
Qed.

Lemma chunk_key_ne_index_map key i : chunk_key key i ≠ index_map_key key.
Proof.
  unfold chunk_key, index_map_key. intros H.
  apply path_join_inj in H; [|done..]. discriminate H.
Qed.

(** ** Writing through the cache chain, as seen after a flush *)

Lemma write_to_cache_chain_cases key b chain chain' ok :
  write_to_cache_chain key b chain = (chain', ok) →
  if ok then ∃ pre c post,
       chain = pre ++ c :: post ∧ chain' = pre ++ setitem key b c :: post
  else chain' = chain.
Proof.
  revert chain' ok; induction chain as [|c rest IH]; intros chain' ok; simpl.
  - by intros [= <- <-].
  - destruct (has_space c (length b)).
    + intros [= <- <-]. by exists [], c, rest.
    + destruct (write_to_cache_chain key b rest) as [rest' ok'].
      intros [= <- <-]. specialize (IH rest' ok' eq_refl). destruct ok'.
      * destruct IH as (pre & c' & post & -> & ->). by exists (c :: pre), c', post.
      * by rewrite IH.
Qed.

Lemma flushed_into_insert post m (key : string) b :
  Forall (λ c, mapper c !! key = None) post →
  flushed_into post (<[key := b]> m) = <[key := b]> (flushed_into post m).
Proof.
  revert m; induction post as [|c post IH]; intros m Hall; simpl; [done|].
  apply Forall_cons in Hall as [Hc Hpost].
  by rewrite <- insert_union_r, IH.
Qed.

Lemma flushed_into_setitem pre c post m key b :
  Forall (λ c', mapper c' !! key = None) post →
  flushed_into (pre ++ setitem key b c :: post) m
  = <[key := b]> (flushed_into (pre ++ c :: post) m).
Proof.
  intros Hpost. rewrite !flushed_into_app. simpl.
  by rewrite <- insert_union_l, flushed_into_insert.
Qed.

Lemma absent_emptied chain (k : string) :
  Forall (λ c, mapper c !! k = None) (emptied <$> chain).
Proof. apply Forall_fmap, Forall_forall. intros c _. apply lookup_empty. Qed.

Lemma absent_setitem pre c post key b (k : string) :
  k ≠ key →
  Forall (λ c', mapper c' !! k = None) (pre ++ c :: post) →
  Forall (λ c', mapper c' !! k = None) (pre ++ setitem key b c :: post).
Proof.
  intros Hne [Hpre [Hc Hpost]%Forall_cons]%Forall_app.
  apply Forall_app. split; [done|]. constructor; [|done].
  simpl. by rewrite lookup_insert_ne.
Qed.

(** A successful write of [key], when no tier holds [key] already, makes
    [key] read [b] after a flush and changes nothing else. *)
Lemma write_bytes_with_caching_ok key b w w' :
  write_bytes_with_caching key b w = (w', Ok tt) →
  Forall (λ c, mapper c !! key = None) (cache_chain w) →
  view w' = <[key := b]> (view w)
  ∧ ∀ k, k ≠ key →
      Forall (λ c, mapper c !! k = None) (cache_chain w) →
      Forall (λ c, mapper c !! k = None) (cache_chain w').
Proof.
  rewrite write_bytes_with_caching_unfold. unfold view.
  destruct w as [st chain]; cbn [storage cache_chain].
  destruct chain as [|c0 rest0] eqn:Hchain.
  { intros [= <-] _. by split. }
  rewrite <- Hchain. clear Hchain.
  destruct (write_to_cache_chain key b chain) as [chain1 ok1] eqn:H1.
  apply write_to_cache_chain_cases in H1. destruct ok1.
  - destruct H1 as (pre & c & post & -> & ->). intros [= <-] Habs.
    cbn [storage cache_chain]. split.
    + apply flushed_into_setitem.
      by apply Forall_app in Habs as [_ [_ ?]%Forall_cons].
    + intros k Hk. by apply absent_setitem.
  - subst chain1. cbv zeta. rewrite flush_cache_spec. cbn [fst storage cache_chain mapper].
    destruct (write_to_cache_chain key b (emptied <$> chain)) as [chain2 ok2] eqn:H2.
    apply write_to_cache_chain_cases in H2. destruct ok2; [|done].
    destruct H2 as (pre & c & post & Hemp & ->). intros [= <-] Habs.
    cbn [storage cache_chain mapper]. split.
    + rewrite flushed_into_setitem.
      * rewrite <- Hemp. f_equal. apply flushed_into_empty.
        apply Forall_fmap, Forall_forall. by intros c' _.
      * pose proof (absent_emptied chain key) as Hall. rewrite Hemp in Hall.
        by apply Forall_app in Hall as [_ [_ ?]%Forall_cons].
    + intros k Hk _. apply absent_setitem; [done|].
      rewrite <- Hemp. apply absent_emptied.
Qed.

(** A write through the cache chain either succeeds or raises the caching
    failure; with an empty chain it succeeds. *)
Lemma write_bytes_with_caching_outcome key b w :
  (write_bytes_with_caching key b w).2 = Ok tt
  ∨ (write_bytes_with_caching key b w).2 = Raise CachingFailed.
Proof.
  rewrite write_bytes_with_caching_unfold.
  destruct (cache_chain w); [by left|].
  destruct (write_to_cache_chain _ _ _) as [chain1 [|]]; [by left|].
  cbv zeta. destruct (write_to_cache_chain _ _ _) as [chain2 [|]]; [by left|by right].
Qed.

Lemma write_bytes_with_caching_no_cache key b w :
  cache_chain w = [] →
  write_bytes_with_caching key b w = (World (setitem key b (storage w)) [], Ok tt).
Proof. intros Hchain. rewrite write_bytes_with_caching_unfold. by rewrite Hchain. Qed.

(** ** The chunk loop *)

Lemma write_chunks_cons key comp idx chunk rest lci w :
  write_chunks key comp idx (chunk :: rest) lci w
  = match write_bytes_with_caching (chunk_key key idx) (comp chunk) w with
    | (w1, Ok _) => write_chunks key comp (S idx) rest (Some idx) w1
    | (w1, Raise e) => (w1, Raise e)
    end.
Proof. reflexivity. Qed.

(** After the loop the variable holds the last index, or is still unbound
    when there was no chunk; the loop raises nothing but the caching
    failure. *)
Lemma write_chunks_outcome key comp chunks idx lci w :
  match (write_chunks key comp idx chunks lci w).2 with
  | Ok r => r = match chunks with
                | [] => lci
                | _ :: _ => Some (idx + length chunks - 1)
                end
  | Raise e => e = CachingFailed
  end.
Proof.
  revert idx lci w; induction chunks as [|chunk rest IH]; intros idx lci w; [done|].
  rewrite write_chunks_cons.
  destruct (write_bytes_with_caching_outcome (chunk_key key idx) (comp chunk) w) as [H|H];
    destruct (write_bytes_with_caching _ _ w) as [w1 [[]|e]]; simpl in H; try done.
  - specialize (IH (S idx) (Some idx) w1).
    destruct (write_chunks _ _ _ rest _ w1) as [w2 [r|e]]; simpl in *; [|done].
    subst r. destruct rest; simpl; f_equal; lia.
  - by injection H.
Qed.

Lemma write_chunks_no_cache key comp chunks idx lci w :
  cache_chain w = [] →
  ∃ w' r, write_chunks key comp idx chunks lci w = (w', Ok r) ∧ cache_chain w' = [].
Proof.
  revert idx lci w; induction chunks as [|chunk rest IH]; intros idx lci w Hchain.
  - by exists w, lci.
  - rewrite write_chunks_cons, write_bytes_with_caching_no_cache by done.
    by apply IH.
Qed.

(** The chunks a successful loop leaves behind: chunk [j] of the list is
    what a flush puts under key [idx + j], compressed; every other key is
    as before. *)
Lemma write_chunks_ok key comp chunks idx lci w w' r :
  write_chunks key comp idx chunks lci w = (w', Ok r) →
  (∀ j, idx ≤ j → Forall (λ c, mapper c !! chunk_key key j = None) (cache_chain w)) →
  (∀ j chunk, chunks !! j = Some chunk →
     view w' !! chunk_key key (idx + j) = Some (comp chunk))
  ∧ (∀ k, (∀ j, j < length chunks → k ≠ chunk_key key (idx + j)) →
       view w' !! k = view w !! k).
Proof.
  revert idx lci w; induction chunks as [|chunk rest IH]; intros idx lci w.
  - intros [= <- _] _. split; [by intros j chunk [=]|done].
  - rewrite write_chunks_cons.
    destruct (write_bytes_with_caching _ _ w) as [w1 [[]|e]] eqn:E1; [|done].
    intros Hrest Habs.
    apply write_bytes_with_caching_ok in E1 as [Hview Hkeep]; [|by apply Habs].
    apply IH in Hrest as [Hchunks Hother]; cycle 1.
    { intros j Hj. apply Hkeep; [|apply Habs; lia].
      intros Heq%chunk_key_inj. lia. }
    split.
    + intros [|j] chunk'; simpl.
      * intros [= <-]. rewrite Hother.
        -- by rewrite Hview, Nat.add_0_r, lookup_insert_eq.
        -- intros j _ Heq%chunk_key_inj. lia.
      * intros Hj. replace (idx + S j) with (S idx + j) by lia. by apply Hchunks.
    + intros k Hk. rewrite Hother, Hview.
      * apply lookup_insert_ne. intros Heq. apply (Hk 0); [simpl; lia|].
        by rewrite Nat.add_0_r.
      * intros j Hj. replace (S idx + j) with (idx + S j) by lia.
        apply Hk. simpl; lia.
Qed.

Lemma chunk_and_write_bytes_unfold b key comp c w :
  chunk_and_write_bytes b key comp c w
  = match write_chunks key comp 0 (generate_chunks b c None) None w with
    | (w1, Ok local_chunk_index) =>
        ((flush_cache w1).1,
         match local_chunk_index with
         | None => Raise UnboundLocalError
         | Some end_chunk => Ok (0, end_chunk)
         end)
    | (w1, Raise e) => (w1, Raise e)
    end.
Proof.
  unfold chunk_and_write_bytes, mbind, M_bind.
  destruct (write_chunks _ _ _ _ _ w) as [w1 [[end_chunk|]|e]]; try done;
    by rewrite flush_cache_spec.
Qed.

(** ** [chunk_and_write_bytes] *)

(** C10. On an empty payload the generator yields nothing, the loop
    variable is never bound and, after the final flush, reading it fails;
    on a non-empty payload the function returns a chunk range unless the
    cache chain refuses a chunk, and always returns one with no cache. *)
Theorem chunk_and_write_bytes_empty_payload key comp c w :
  generate_chunks [] c None = []
  ∧ chunk_and_write_bytes [] key comp c w
    = ((flush_cache w).1, Raise UnboundLocalError)
  ∧ (∀ b, b ≠ [] →
       (chunk_and_write_bytes b key comp c w).2
       = Ok (0, length (generate_chunks b c None) - 1)
       ∨ (chunk_and_write_bytes b key comp c w).2 = Raise CachingFailed)
  ∧ (∀ b, b ≠ [] → cache_chain w = [] →
       (chunk_and_write_bytes b key comp c w).2
       = Ok (0, length (generate_chunks b c None) - 1)).
Proof.
  split; [done|]. split; [by rewrite chunk_and_write_bytes_unfold|].
  assert (∀ b, b ≠ [] →
    match (write_chunks key comp 0 (generate_chunks b c None) None w).2 with
    | Ok r => r = Some (length (generate_chunks b c None) - 1)
    | Raise e => e = CachingFailed
    end) as Hloop.
  { intros b Hb.
    pose proof (write_chunks_outcome key comp (generate_chunks b c None) 0 None w) as H.
    pose proof (generate_chunks_nonempty b c None Hb) as Hne.
    by destruct (generate_chunks b c None). }
  split.
  - intros b Hb. specialize (Hloop b Hb). rewrite chunk_and_write_bytes_unfold.
    destruct (write_chunks _ _ _ _ _ w) as [w1 [r|e]]; simpl in *; subst; auto.
  - intros b Hb Hchain. specialize (Hloop b Hb).
    rewrite chunk_and_write_bytes_unfold.
    destruct (write_chunks_no_cache key comp (generate_chunks b c None) 0 None w Hchain)
      as (w1 & r & Hw & _).
    rewrite Hw in *. simpl in *. by subst.
Qed.

Lemma chunk_and_write_bytes_empty_payload_witness :
  B "abcdef" ≠ [] ∧ cache_chain (World (mk ∅ None) []) = []
  ∧ (chunk_and_write_bytes (B "abcdef") "tensor" id 4 (World (mk ∅ None) [])).2
    = Ok (0, length (generate_chunks (B "abcdef") 4 None) - 1).
Proof.
  split; [discriminate|]. split; [reflexivity|].
  apply (chunk_and_write_bytes_empty_payload "tensor" id 4 (World (mk ∅ None) []));
    [discriminate|reflexivity].
Defined.

(** What a successful call leaves on the backend: every chunk the generator
    yields, full or not, under its key and compressed. *)
Lemma chunk_and_write_bytes_ok b key comp c w w' r :
  chunk_and_write_bytes b key comp c w = (w', Ok r) →
  (∀ j, Forall (λ t, mapper t !! chunk_key key j = None) (cache_chain w)) →
  generate_chunks b c None ≠ []
  ∧ r = (0, length (generate_chunks b c None) - 1)
  ∧ (∀ j chunk, generate_chunks b c None !! j = Some chunk →
       mapper (storage w') !! chunk_key key j = Some (comp chunk))
  ∧ (∀ k, (∀ j, j < length (generate_chunks b c None) → k ≠ chunk_key key j) →
       mapper (storage w') !! k = view w !! k).
Proof.
  rewrite chunk_and_write_bytes_unfold. intros H Habs.
  pose proof (write_chunks_outcome key comp (generate_chunks b c None) 0 None w) as Hout.
  destruct (write_chunks _ _ _ _ _ w) as [w1 [lci|e]] eqn:Hloop; [|done].
  simpl in Hout. destruct lci as [end_chunk|]; [|done].
  injection H as <- <-.
  apply write_chunks_ok in Hloop as [Hchunks Hother]; [|by intros j _].
  rewrite flush_cache_spec. cbn [fst storage mapper]. fold (view w1).
  destruct (generate_chunks b c None) as [|s ss] eqn:Hgen; [done|].
  injection Hout as ->. repeat split; done.
Qed.

(** C3, on the code: the final chunk of a 3-byte payload with chunk size 4
    is incomplete, and it reaches the backend compressed (here reversed),
    like every other chunk. *)
Theorem incomplete_chunk_is_compressed :
  let w' := (chunk_and_write_bytes (B "123") "tensor" reverse 4 (World (mk ∅ None) [])).1 in
  generate_chunks (B "123") 4 None = [B "123"]
  ∧ length (B "123") < 4
  ∧ mapper (storage w') !! "tensor/c0" = Some (reverse (B "123"))
  ∧ reverse (B "123") ≠ B "123".
Proof.
  intros w'. split; [vm_compute; reflexivity|]. split; [vm_compute; lia|].
  split; [vm_compute; reflexivity|]. vm_compute; discriminate.
Qed.

(** ** The unary codec is a correct pickler *)

Lemma get_nat_put_nat n rest :
  UnaryPickle.get_nat (UnaryPickle.put_nat n ++ rest) = Some (n, rest).
Proof.
  unfold UnaryPickle.put_nat. induction n as [|n IH]; [done|].
  simpl in *. by rewrite IH.
Qed.

Lemma get_n_put {A} (put : A → bytes) get (l : list A) rest :
  (∀ x rest', get (put x ++ rest') = Some (x, rest')) →
  UnaryPickle.get_n get (length l) (concat (put <$> l) ++ rest) = Some (l, rest).
Proof.
  intros Hget. induction l as [|x l IH]; [done|].
  rewrite fmap_cons. cbn [concat length UnaryPickle.get_n].
  by rewrite <- (assoc_L (++)), Hget, IH.
Qed.

Lemma get_seq_put_seq {A} (put : A → bytes) get (l : list A) rest :
  (∀ x rest', get (put x ++ rest') = Some (x, rest')) →
  UnaryPickle.get_seq get (UnaryPickle.put_seq put l ++ rest) = Some (l, rest).
Proof.
  intros Hget. unfold UnaryPickle.get_seq, UnaryPickle.put_seq.
  rewrite <- (assoc_L (++)), get_nat_put_nat. by apply get_n_put.
Qed.

Lemma get_entry_put_entry e rest :
  UnaryPickle.get_entry (UnaryPickle.put_entry e ++ rest) = Some (e, rest).
Proof.
  unfold UnaryPickle.get_entry, UnaryPickle.put_entry.
  rewrite <- !(assoc_L (++)), !get_nat_put_nat.
  rewrite (get_seq_put_seq _ _ _ _ get_nat_put_nat).
  by destruct e as [s t [] sh].
Qed.

Lemma unary_pickle_correct : pickle_correct UnaryPickle.pickler.
Proof.
  intros index_map. simpl. unfold UnaryPickle.loads, UnaryPickle.dumps.
  rewrite <- (right_id_L [] (++) (UnaryPickle.put_seq _ _)).
  by rewrite (get_seq_put_seq _ _ _ _ get_entry_put_entry).
Qed.

(** ** [chunk_and_write_array] *)

(** C8, on the code: a batched write raises before anything is serialized,
    chunked or stored, and leaves the backend, the cache chain and the
    index map as they were.  What it raises is a [TypeError], not a
    [NotImplementedError]: the code raises the constant [NotImplemented],
    which is not an exception. *)
Theorem batched_write_raises P a key comp c w :
  chunk_and_write_array P a key comp c true w = (w, Raise TypeError)
  ∧ (chunk_and_write_array P a key comp c true w).2 ≠ Raise NotImplementedError.
Proof. split; [reflexivity|discriminate]. Qed.

Lemma chunk_and_write_array_unfold P a key comp c w :
  chunk_and_write_array P a key comp c false w
  = match chunk_and_write_bytes (array_to_bytes a) key comp c w with
    | (w1, Ok range) =>
        (World (setitem (index_map_key key)
                  (pickle_dumps P [Entry range.1 range.2 (dtype_of a) (shape a)])
                  (storage w1))
               (cache_chain w1), Ok tt)
    | (w1, Raise e) => (w1, Raise e)
    end.
Proof.
  unfold chunk_and_write_array, mbind, M_bind.
  by destruct (chunk_and_write_bytes _ _ _ _ w) as [w1 [range|e]].
Qed.

(** What a successful write leaves on the backend: an index map holding the
    entry of this sample and nothing else, and the compressed chunks. *)
Lemma chunk_and_write_array_ok P a key comp c w w' :
  chunk_and_write_array P a key comp c false w = (w', Ok tt) →
  (∀ j, Forall (λ t, mapper t !! chunk_key key j = None) (cache_chain w)) →
  let chunks := generate_chunks (buffer a) c None in
  chunks ≠ []
  ∧ mapper (storage w') !! index_map_key key
    = Some (pickle_dumps P [Entry 0 (length chunks - 1) (dtype_of a) (shape a)])
  ∧ (∀ j chunk, chunks !! j = Some chunk →
       mapper (storage w') !! chunk_key key j = Some (comp chunk)).
Proof.
  rewrite chunk_and_write_array_unfold. intros H Habs chunks.
  destruct (chunk_and_write_bytes _ _ _ _ w) as [w1 [range|e]] eqn:Hbytes; [|done].
  injection H as <-.
  apply chunk_and_write_bytes_ok in Hbytes as (Hne & -> & Hchunks & _); [|done].
  cbn [storage mapper setitem fst snd]. split; [done|]. split.
  - apply lookup_insert_eq.
  - intros j chunk Hj. rewrite lookup_insert_ne by (symmetry; apply chunk_key_ne_index_map).
    by apply Hchunks.
Qed.

(** C4, on the code: every write starts from an empty index map.  After two
    successful writes to the same key the persisted index map holds one
    entry, that of the second sample. *)
Theorem index_map_overwritten :
  let P := UnaryPickle.pickler in
  let a1 := Array uint8 [2] (B "ab") in
  let a2 := Array uint8 [3] (B "cde") in
  let r1 := chunk_and_write_array P a1 "tensor" id 4 false (World (mk ∅ None) []) in
  let r2 := chunk_and_write_array P a2 "tensor" id 4 false r1.1 in
  r1.2 = Ok tt ∧ r2.2 = Ok tt
  ∧ mapper (storage r1.1) !! "tensor/index_map" ≫= pickle_loads P
    = Some [Entry 0 0 uint8 [2]]
  ∧ mapper (storage r2.1) !! "tensor/index_map" ≫= pickle_loads P
    = Some [Entry 0 0 uint8 [3]].
Proof. repeat split; vm_compute; reflexivity. Qed.

(** ** Reading a sample back *)

Lemma read_chunks_ok key decomp comp w chunks start :
  (∀ x, decomp (comp x) = x) →
  (∀ j chunk, chunks !! j = Some chunk →
     mapper (storage w) !! chunk_key key (start + j) = Some (comp chunk)) →
  read_chunks key decomp (seq start (length chunks)) w = (w, Ok chunks).
Proof.
  intros Hinv. revert start; induction chunks as [|chunk rest IH]; intros start Hst;
    [done|].
  cbn [length seq read_chunks]. unfold mbind, M_bind, storage_get, getitem.
  pose proof (Hst 0 chunk eq_refl) as H0. rewrite Nat.add_0_r in H0. rewrite H0.
  rewrite IH; cycle 1.
  { intros j chunk' Hj. replace (S start + j) with (start + S j) by lia.
    by apply Hst. }
  unfold mret, M_ret. by rewrite Hinv.
Qed.

Lemma read_sample_ok P decomp comp key w entry chunks :
  pickle_correct P →
  (∀ x, decomp (comp x) = x) →
  mapper (storage w) !! index_map_key key = Some (pickle_dumps P [entry]) →
  start_chunk entry = 0 →
  S (end_chunk entry) = length chunks →
  (∀ j chunk, chunks !! j = Some chunk →
     mapper (storage w) !! chunk_key key j = Some (comp chunk)) →
  read_sample P decomp key 0 w
  = (w, array_from_bytes (concat chunks) (entry_dtype entry) (entry_shape entry)).
Proof.
  intros HP Hinv Him Hstart Hend Hchunks.
  unfold read_sample, mbind, M_bind, storage_get, getitem.
  rewrite Him, HP. cbn [lookup list_lookup].
  rewrite Hstart, Hend, Nat.sub_0_r.
  by rewrite (read_chunks_ok key decomp comp w chunks 0 Hinv Hchunks).
Qed.

(** C1, as stated, fails in three ways: a batched write raises; an
    unbatched sample is read back with the shape it was written with, not
    the normalized one; and after the second write to a key sample 1 is
    out of range, the index map holding a single entry. *)
Lemma round_trip_fails :
  let P := UnaryPickle.pickler in
  let w0 := World (mk ∅ None) [] in
  let w1 := (chunk_and_write_array P (Array uint8 [2] (B "ab")) "tensor" id 4 false w0).1 in
  (¬ round_trip_claim P id id (Array uint8 [1; 3] (B "abc")) "tensor" 4 true 0 w0
   ∧ (write_then_read P id id (Array uint8 [1; 3] (B "abc")) "tensor" 4 true 0 w0).2
     = Raise TypeError)
  ∧ (¬ round_trip_claim P id id (Array uint8 [3] (B "abc")) "tensor" 4 false 0 w0
     ∧ (write_then_read P id id (Array uint8 [3] (B "abc")) "tensor" 4 false 0 w0).2
       = Ok (Array uint8 [3] (B "abc"))
     ∧ normalize_and_batchify_shape (Array uint8 [3] (B "abc")) false
       = Ok (Array uint8 [1; 3] (B "abc")))
  ∧ (¬ round_trip_claim P id id (Array uint8 [3] (B "cde")) "tensor" 4 false 1 w1
     ∧ (write_then_read P id id (Array uint8 [3] (B "cde")) "tensor" 4 false 1 w1).2
       = Raise IndexError).
Proof.
  intros P w0 w1. unfold round_trip_claim.
  repeat split; try (vm_compute; reflexivity);
    intros (a_norm & Hn & Hr); vm_compute in Hn, Hr; congruence.
Qed.

(** C1, amended.  For an unbatched write of a well-formed array to a key
    that has no index map yet, with chunk size at least 1, a compressor
    undone by the decompressor and no tier holding a chunk of the key: if
    the write succeeds, reading sample 0 back succeeds and returns an array
    with the dtype, the element count and bit for bit the flattened
    contents of the normalized input. *)
Theorem write_read_round_trip P comp decomp a key c w :
  pickle_correct P →
  (∀ x, decomp (comp x) = x) →
  1 ≤ c →
  well_formed a →
  mapper (storage w) !! index_map_key key = None →
  (∀ j, Forall (λ t, mapper t !! chunk_key key j = None) (cache_chain w)) →
  (chunk_and_write_array P a key comp c false w).2 = Ok tt →
  ∃ a_out a_norm,
    (write_then_read P comp decomp a key c false 0 w).2 = Ok a_out
    ∧ normalize_and_batchify_shape a false = Ok a_norm
    ∧ flatten a_out = flatten a_norm.
Proof.
  intros HP Hinv Hc Hwf _ Habs Hok.
  destruct (normalize_is_reshape a false) as (a_norm & Hnorm & _ & _ & Hflat).
  exists a, a_norm. split; [|by split].
  unfold write_then_read, mbind, M_bind.
  destruct (chunk_and_write_array P a key comp c false w) as [w' [[]|e]] eqn:Hw;
    [|done].
  apply chunk_and_write_array_ok in Hw as (Hne & Him & Hchunks); [|done].
  rewrite (read_sample_ok P decomp comp key w' _ (generate_chunks (buffer a) c None)
             HP Hinv Him eq_refl); [|..|exact Hchunks].
  - cbn [snd entry_dtype entry_shape]. rewrite generate_chunks_concat by done.
    unfold array_from_bytes. rewrite decide_True by done. by destruct a.
  - cbn [end_chunk]. destruct (generate_chunks (buffer a) c None); [done|].
    simpl. lia.
Qed.

Lemma write_read_round_trip_witness :
  ∃ a_out a_norm,
    (write_then_read UnaryPickle.pickler reverse reverse
       (Array uint8 [3; 2] (B "abcdef")) "tensor" 4 false 0
       (World (mk ∅ None) [mk ∅ (Some 5); mk ∅ (Some 3)])).2 = Ok a_out
    ∧ normalize_and_batchify_shape (Array uint8 [3; 2] (B "abcdef")) false = Ok a_norm
    ∧ flatten a_out = flatten a_norm.
Proof.
  apply write_read_round_trip.
  - apply unary_pickle_correct.
  - apply reverse_involutive.
  - lia.
  - reflexivity.
  - reflexivity.
  - intros j. repeat constructor.
  - vm_compute; reflexivity.
Defined.

(** ** Capacity exhaustion within a sample *)

(** The guarantee on capacity exhaustion is per chunk.  Within one sample
    an earlier chunk can already have been flushed to the backend when a
    later one is refused: there is no rollback.  Here the compressor pads
    short chunks, so the second, incomplete chunk outgrows the only tier. *)
Example earlier_chunk_already_flushed :
  let comp := λ x : bytes, if decide (length x < 4) then x ++ replicate 8 x00 else x in
  let r := chunk_and_write_bytes (B "123456") "tensor" comp 4
             (World (mk ∅ None) [mk ∅ (Some 5)]) in
  r.2 = Raise CachingFailed
  ∧ mapper (storage r.1) !! "tensor/c0" = Some (B "1234")
  ∧ mapper (storage r.1) !! "tensor/c1" = None.
Proof. repeat split; vm_compute; reflexivity. Qed.

(** * Further properties of the write path *)

(** ** Tiers keep their capacity; a flush is idempotent on what it publishes *)

Lemma emptied_emptied_chain (chain : list MemoryProvider) :
  emptied <$> (emptied <$> chain) = emptied <$> chain.
Proof. rewrite <- list_fmap_compose. by apply list_fmap_ext. Qed.

Lemma write_to_cache_chain_emptied key b chain :
  emptied <$> (write_to_cache_chain key b chain).1 = emptied <$> chain.
Proof.
  destruct (write_to_cache_chain key b chain) as [chain' ok] eqn:H.
  apply write_to_cache_chain_cases in H. destruct ok; [|by subst].
  destruct H as (pre & c & post & -> & ->). cbn [fst].
  by rewrite !fmap_app, !fmap_cons.
Qed.

Lemma write_to_cache_chain_fit_iff key b chain :
  (write_to_cache_chain key b chain).2 = true
  ↔ Exists (λ t, has_space t (length b) = true) chain.
Proof.
  induction chain as [|c rest IH]; cbn [write_to_cache_chain].
  - split; [done|by intros ?%Exists_nil].
  - destruct (has_space c (length b)) eqn:Hc.
    + split; [|done]. intros _. by left.
    + destruct (write_to_cache_chain key b rest) as [rest' ok]. cbn [snd] in *.
      rewrite Exists_cons, <- IH. split; [by right|]. intros [?|?]; congruence.
Qed.

Lemma flushed_into_lookup_ext chain chain' m m' (k : string) :
  Forall2 (λ c c', mapper c !! k = mapper c' !! k) chain chain' →
  m !! k = m' !! k →
  flushed_into chain m !! k = flushed_into chain' m' !! k.
Proof.
  intros Hall. revert m m'.
  induction Hall as [|c c' chain chain' Hc _ IH]; intros m m' Hm; [done|].
  cbn [flushed_into foldl]. apply IH. by rewrite !lookup_union, Hc, Hm.
Qed.

Lemma flushed_into_setitem_ne pre c post m key b (k : string) :
  k ≠ key →
  flushed_into (pre ++ setitem key b c :: post) m !! k
  = flushed_into (pre ++ c :: post) m !! k.
Proof.
  intros Hne. apply flushed_into_lookup_ext; [|done].
  apply Forall2_app; [by apply Forall_Forall2_diag, Forall_forall|].
  constructor; [|by apply Forall_Forall2_diag, Forall_forall].
  simpl. by rewrite lookup_insert_ne.
Qed.

Lemma flushed_into_is_Some chain m (k : string) :
  is_Some (m !! k) → is_Some (flushed_into chain m !! k).
Proof.
  revert m; induction chain as [|c rest IH]; intros m Hm; [done|].
  cbn [flushed_into foldl]. apply IH. rewrite lookup_union_is_Some. by right.
Qed.

Lemma view_flush w :
  view (flush_cache w).1 = view w
  ∧ mapper (storage (flush_cache w).1) = view w.
Proof.
  rewrite flush_cache_spec. unfold view. cbn [fst storage cache_chain mapper].
  split; [|done]. apply flushed_into_empty.
  apply Forall_fmap, Forall_forall. by intros c _.
Qed.

Lemma view_no_cache w :
  Forall (λ t, mapper t = ∅) (cache_chain w) → view w = mapper (storage w).
Proof. apply flushed_into_empty. Qed.

(** ** One write through the chain, whatever its outcome *)

Lemma write_bytes_with_caching_raise key b w w' e :
  write_bytes_with_caching key b w = (w', Raise e) →
  e = CachingFailed
  ∧ w' = (flush_cache w).1
  ∧ cache_chain w ≠ []
  ∧ Forall (λ c, has_space (emptied c) (length b) = false) (cache_chain w).
Proof.
  rewrite write_bytes_with_caching_unfold.
  destruct w as [st chain]; cbn [storage cache_chain].
  destruct chain as [|c0 rest0] eqn:Hchain; [done|].
  rewrite <- Hchain. assert (chain ≠ []) as Hne by (by subst). clear Hchain.
  destruct (write_to_cache_chain key b chain) as [chain1 ok1] eqn:H1.
  pose proof (write_to_cache_chain_cases _ _ _ _ _ H1) as Hc1.
  destruct ok1; [done|]. subst chain1. cbv zeta.
  rewrite flush_cache_spec. cbn [fst storage cache_chain mapper].
  destruct (write_to_cache_chain key b (emptied <$> chain)) as [chain2 ok2] eqn:H2.
  pose proof (write_to_cache_chain_cases _ _ _ _ _ H2) as Hc2.
  destruct ok2; [done|]. subst chain2. intros [= <- <-].
  repeat split; [done|].
  apply Forall_forall. intros t Ht.
  destruct (has_space (emptied t) (length b)) eqn:Hfit; [|done].
  assert ((write_to_cache_chain key b (emptied <$> chain)).2 = true) as Hyes.
  { apply write_to_cache_chain_fit_iff, Exists_exists. exists (emptied t).
    split; [|done]. by apply list_elem_of_fmap_2. }
  by rewrite H2 in Hyes.
Qed.

Lemma write_bytes_with_caching_any key b w :
  let w' := (write_bytes_with_caching key b w).1 in
  emptied <$> cache_chain w' = emptied <$> cache_chain w
  ∧ max_size (storage w') = max_size (storage w)
  ∧ (∀ k, k ≠ key → view w' !! k = view w !! k)
  ∧ (∀ k, is_Some (mapper (storage w) !! k) → is_Some (mapper (storage w') !! k)).
Proof.
  rewrite write_bytes_with_caching_unfold. unfold view.
  destruct w as [st chain]; cbn [storage cache_chain].
  destruct chain as [|c0 rest0] eqn:Hchain.
  { cbn [fst storage cache_chain setitem mapper max_size flushed_into foldl].
    repeat split; try done.
    - intros k Hk. by rewrite lookup_insert_ne.
    - intros k Hk. rewrite lookup_insert_is_Some. destruct (decide (key = k)); auto. }
  rewrite <- Hchain. clear Hchain.
  pose proof (write_to_cache_chain_emptied key b chain) as He1.
  destruct (write_to_cache_chain key b chain) as [chain1 ok1] eqn:H1.
  apply write_to_cache_chain_cases in H1. destruct ok1.
  - cbn [fst snd storage cache_chain] in *. repeat split; try done.
    destruct H1 as (pre & c & post & -> & ->).
    intros k Hk. by apply flushed_into_setitem_ne.
  - subst chain1. cbv zeta. rewrite flush_cache_spec.
    cbn [fst storage cache_chain mapper max_size].
    pose proof (write_to_cache_chain_emptied key b (emptied <$> chain)) as He2.
    destruct (write_to_cache_chain key b (emptied <$> chain)) as [chain2 ok2] eqn:H2.
    apply write_to_cache_chain_cases in H2.
    cbn [fst snd storage cache_chain mapper max_size] in *.
    split; [by rewrite He2, emptied_emptied_chain|]. split; [done|]. split.
    + intros k Hk. apply flushed_into_absent. destruct ok2.
      * destruct H2 as (pre & c & post & Hemp & ->).
        apply absent_setitem; [done|]. rewrite <- Hemp. apply absent_emptied.
      * subst chain2. apply absent_emptied.
    + intros k. apply flushed_into_is_Some.
Qed.

(** ** The chunk loop and the sample writer, whatever their outcome *)

Lemma write_chunks_any key comp chunks idx lci w :
  let r := write_chunks key comp idx chunks lci w in
  emptied <$> cache_chain r.1 = emptied <$> cache_chain w
  ∧ max_size (storage r.1) = max_size (storage w)
  ∧ (∀ k, (∀ j, k ≠ chunk_key key j) → view r.1 !! k = view w !! k)
  ∧ (∀ k, is_Some (mapper (storage w) !! k) → is_Some (mapper (storage r.1) !! k))
  ∧ (∀ e, r.2 = Raise e → Forall (λ t, mapper t = ∅) (cache_chain r.1)).
Proof.
  revert idx lci w; induction chunks as [|chunk rest IH]; intros idx lci w.
  { cbn. repeat split; done. }
  cbv zeta. rewrite write_chunks_cons.
  pose proof (write_bytes_with_caching_any (chunk_key key idx) (comp chunk) w)
    as (Hch & Hmax & Hview & Hdom).
  destruct (write_bytes_with_caching _ _ w) as [w1 [[]|e]] eqn:E1; cbn [fst snd] in *.
  - destruct (IH (S idx) (Some idx) w1) as (Hch' & Hmax' & Hview' & Hdom' & Hraise').
    split; [congruence|]. split; [congruence|]. split; [|split; [|done]].
    + intros k Hk. rewrite Hview' by done. apply Hview, Hk.
    + intros k Hk. by apply Hdom', Hdom.
  - split; [done|]. split; [done|].
    split; [intros k Hk; apply Hview, Hk|]. split; [done|]. intros e' _.
    apply write_bytes_with_caching_raise in E1 as (_ & -> & _).
    rewrite flush_cache_spec. apply Forall_fmap, Forall_forall. by intros t _.
Qed.

Lemma chunk_and_write_bytes_any b key comp c w :
  let r := chunk_and_write_bytes b key comp c w in
  cache_chain r.1 = emptied <$> cache_chain w
  ∧ max_size (storage r.1) = max_size (storage w)
  ∧ (∀ k, (∀ j, k ≠ chunk_key key j) → mapper (storage r.1) !! k = view w !! k)
  ∧ (∀ k, is_Some (mapper (storage w) !! k) → is_Some (mapper (storage r.1) !! k)).
Proof.
  cbv zeta. rewrite chunk_and_write_bytes_unfold.
  pose proof (write_chunks_any key comp (generate_chunks b c None) 0 None w)
    as (Hch & Hmax & Hview & Hdom & Hraise).
  destruct (write_chunks _ _ _ _ _ w) as [w1 [lci|e]]; cbn [fst snd] in *.
  - rewrite flush_cache_spec. cbn [fst storage cache_chain mapper max_size].
    fold (view w1). repeat split; try done.
    intros k Hk. by apply flushed_into_is_Some, Hdom.
  - specialize (Hraise e eq_refl).
    split; [by rewrite <- Hch, (emptied_chain_id _ Hraise)|].
    split; [done|]. split; [|done].
    intros k Hk. rewrite <- (view_no_cache w1 Hraise). by apply Hview.
Qed.

Lemma emptied_chain_max_size (l1 l2 : list MemoryProvider) :
  emptied <$> l1 = emptied <$> l2 → max_size <$> l1 = max_size <$> l2.
Proof.
  intros H. apply (f_equal (fmap max_size)) in H.
  by rewrite <- !list_fmap_compose in H.
Qed.

(** ** What a user of the cache chain can rely on *)

(** X1. [write_to_cache] never touches the backend or a capacity; it answers
    [True] when some tier has space for the payload, and answers [False],
    leaving every tier as it was, when none has. *)
Theorem write_to_cache_reports_fit key b w :
  let r := write_to_cache key b w in
  storage r.1 = storage w
  ∧ max_size <$> cache_chain r.1 = max_size <$> cache_chain w
  ∧ ((r.2 = Ok true ∧ Exists (λ t, has_space t (length b) = true) (cache_chain w))
     ∨ (r = (w, Ok false)
        ∧ Forall (λ t, has_space t (length b) = false) (cache_chain w))).
Proof.
  cbv zeta. unfold write_to_cache.
  pose proof (write_to_cache_chain_emptied key b (cache_chain w)) as Hemp.
  pose proof (write_to_cache_chain_fit_iff key b (cache_chain w)) as Hfit.
  destruct (write_to_cache_chain key b (cache_chain w)) as [chain' ok] eqn:H.
  cbn [fst snd storage cache_chain] in *.
  split; [done|]. split; [by apply emptied_chain_max_size|].
  destruct ok.
  - left. split; [done|]. by apply Hfit.
  - right. apply write_to_cache_chain_cases in H. subst chain'.
    split; [by destruct w|].
    apply Forall_forall. intros t Ht.
    destruct (has_space t (length b)) eqn:Ht'; [|done].
    assert (false = true) as [=]. apply Hfit, Exists_exists. eauto.
Qed.

(** X2. Flush and retry: when no tier has space as it stands but some tier
    would have once empty, the write publishes everything cached to the
    backend, empties every tier, and stores the payload in the first tier
    that has space when empty. *)
Theorem flush_and_retry key b w pre c post :
  cache_chain w = pre ++ c :: post →
  Forall (λ t, has_space t (length b) = false) (cache_chain w) →
  Forall (λ t, has_space (emptied t) (length b) = false) pre →
  has_space (emptied c) (length b) = true →
  write_bytes_with_caching key b w
  = (World (mk (view w) (max_size (storage w)))
       ((emptied <$> pre) ++ setitem key b (emptied c) :: (emptied <$> post)),
     Ok tt).
Proof.
  intros Hchain Hfull Hpre Hc. rewrite write_bytes_with_caching_unfold.
  destruct (cache_chain w) as [|c0 rest0] eqn:Hw; [by destruct pre|].
  rewrite write_to_cache_chain_no_fit by done. cbv zeta iota.
  rewrite flush_cache_spec. cbn [fst storage cache_chain mapper].
  rewrite Hchain, fmap_app, fmap_cons.
  rewrite write_to_cache_chain_first_fit; [|by apply Forall_fmap|done].
  unfold view. by rewrite Hw, Hchain.
Qed.

Lemma flush_and_retry_witness :
  let w := World (mk ∅ None) [mk {["k" := B "xy"]} (Some 3)] in
  write_bytes_with_caching "tensor/c0" (B "abc") w
  = (World (mk (view w) None) [setitem "tensor/c0" (B "abc") (mk ∅ (Some 3))], Ok tt).
Proof.
  intros w.
  apply (flush_and_retry "tensor/c0" (B "abc") w [] (mk {["k" := B "xy"]} (Some 3)) []).
  - reflexivity.
  - repeat constructor.
  - constructor.
  - vm_compute; reflexivity.
Defined.

Lemma write_bytes_with_caching_raise_iff key b w :
  (write_bytes_with_caching key b w).2 = Raise CachingFailed
  ↔ cache_chain w ≠ []
    ∧ Forall (λ c, has_space (emptied c) (length b) = false) (cache_chain w).
Proof.
  split.
  - destruct (write_bytes_with_caching key b w) as [w' o] eqn:E. cbn [snd].
    intros ->. by apply write_bytes_with_caching_raise in E as (_ & _ & ? & ?).
  - intros [Hne Hall]. rewrite write_bytes_with_caching_unfold.
    destruct (cache_chain w) as [|c rest] eqn:Hchain; [done|].
    rewrite write_to_cache_chain_no_fit; cycle 1.
    { eapply Forall_impl; [exact Hall|]. intros t. apply has_space_emptied_false. }
    cbv zeta iota. rewrite flush_cache_spec. cbn [fst cache_chain storage].
    rewrite write_to_cache_chain_no_fit; [done|]. by apply Forall_fmap.
Qed.

(** X3. The only error of a write through the chain is the caching
    failure, and it is raised exactly when the chain is not empty and no
    tier has space for the payload even when empty. *)
Theorem caching_failure_iff key b w :
  ((write_bytes_with_caching key b w).2 = Ok tt
   ∨ (write_bytes_with_caching key b w).2 = Raise CachingFailed)
  ∧ ((write_bytes_with_caching key b w).2 = Raise CachingFailed
     ↔ cache_chain w ≠ []
       ∧ Forall (λ c, has_space (emptied c) (length b) = false) (cache_chain w)).
Proof.
  split; [apply write_bytes_with_caching_outcome|].
  apply write_bytes_with_caching_raise_iff.
Qed.

Lemma caching_failure_iff_witness :
  (write_bytes_with_caching "tensor/c0" (B "abcd")
     (World (mk ∅ None) [mk ∅ (Some 3); mk ∅ (Some 2)])).2 = Raise CachingFailed.
Proof.
  apply (caching_failure_iff "tensor/c0" (B "abcd")
           (World (mk ∅ None) [mk ∅ (Some 3); mk ∅ (Some 2)])).
  split; [discriminate|repeat constructor].
Defined.

(** X4. Read your write: after a successful write of a key that no tier
    held, a flush leaves the payload on the backend under that key, and
    every other key as a flush before the write would have left it. *)
Theorem write_then_flush_reads_back key b w w' :
  write_bytes_with_caching key b w = (w', Ok tt) →
  Forall (λ c, mapper c !! key = None) (cache_chain w) →
  mapper (storage (flush_cache w').1) !! key = Some b
  ∧ ∀ k, k ≠ key →
      mapper (storage (flush_cache w').1) !! k
      = mapper (storage (flush_cache w).1) !! k.
Proof.
  intros Hw Habs. destruct (view_flush w') as [_ ->]. destruct (view_flush w) as [_ ->].
  apply write_bytes_with_caching_ok in Hw as [-> _]; [|done].
  split; [apply lookup_insert_eq|]. intros k Hk. by apply lookup_insert_ne.
Qed.

Lemma write_then_flush_reads_back_witness :
  let w := World (mk ∅ None) [mk ∅ (Some 2); mk ∅ (Some 10)] in
  mapper (storage (flush_cache (write_bytes_with_caching "tensor/c0" (B "abc") w).1).1)
    !! "tensor/c0" = Some (B "abc").
Proof.
  intros w.
  apply (write_then_flush_reads_back "tensor/c0" (B "abc") w
           (write_bytes_with_caching "tensor/c0" (B "abc") w).1).
  - vm_compute; reflexivity.
  - repeat constructor.
Defined.

(** X5. A key held by two tiers is resolved by chain position, not by age.
    If a first payload only fits the second tier and a later payload for the
    same key fits the first tier, both writes succeed and a flush leaves the
    first, older payload on the backend. *)
Theorem stale_value_wins key b1 b2 t1 t2 st :
  has_space t1 (length b1) = false →
  has_space t2 (length b1) = true →
  has_space t1 (length b2) = true →
  ∃ w1 w2,
    write_bytes_with_caching key b1 (World st [t1; t2]) = (w1, Ok tt)
    ∧ write_bytes_with_caching key b2 w1 = (w2, Ok tt)
    ∧ mapper (storage (flush_cache w2).1) !! key = Some b1.
Proof.
  intros H11 H21 H12.
  exists (World st [t1; setitem key b1 t2]),
         (World st [setitem key b2 t1; setitem key b1 t2]).
  split; [|split].
  - rewrite write_bytes_with_caching_unfold. cbn. by rewrite H11, H21.
  - rewrite write_bytes_with_caching_unfold. cbn. by rewrite H12.
  - destruct (view_flush (World st [setitem key b2 t1; setitem key b1 t2])) as [_ ->].
    unfold view. cbn [cache_chain storage].
    apply (flushed_into_last [setitem key b2 t1] (setitem key b1 t2) []);
      [apply lookup_insert_eq|constructor].
Qed.

Lemma stale_value_wins_witness :
  ∃ w1 w2,
    write_bytes_with_caching "k" (B "old!") (World (mk ∅ None) [mk ∅ (Some 2); mk ∅ (Some 9)])
    = (w1, Ok tt)
    ∧ write_bytes_with_caching "k" (B "n") w1 = (w2, Ok tt)
    ∧ mapper (storage (flush_cache w2).1) !! "k" = Some (B "old!").
Proof.
  apply (stale_value_wins "k" (B "old!") (B "n") (mk ∅ (Some 2)) (mk ∅ (Some 9)));
    vm_compute; reflexivity.
Defined.

Lemma chunk_and_write_array_any P a key comp c w :
  let r := chunk_and_write_array P a key comp c false w in
  cache_chain r.1 = emptied <$> cache_chain w
  ∧ max_size (storage r.1) = max_size (storage w)
  ∧ (∀ k, (∀ j, k ≠ chunk_key key j) → k ≠ index_map_key key →
       mapper (storage r.1) !! k = view w !! k)
  ∧ (∀ k, is_Some (mapper (storage w) !! k) → is_Some (mapper (storage r.1) !! k))
  ∧ (∀ e, r.2 = Raise e →
       mapper (storage r.1) !! index_map_key key = view w !! index_map_key key).
Proof.
  cbv zeta. rewrite chunk_and_write_array_unfold.
  pose proof (chunk_and_write_bytes_any (array_to_bytes a) key comp c w)
    as (Hch & Hmax & Hview & Hdom).
  destruct (chunk_and_write_bytes _ _ _ _ w) as [w1 [range|e]]; cbn [fst snd] in *.
  - cbn [storage cache_chain setitem mapper max_size].
    split; [done|]. split; [done|]. split; [|split; [|done]].
    + intros k Hk Him. rewrite lookup_insert_ne by done. by apply Hview.
    + intros k Hk. rewrite lookup_insert_is_Some.
      destruct (decide (index_map_key key = k)); [by left|right]. split; [done|].
      by apply Hdom.
  - split; [done|]. split; [done|]. split; [by intros k Hk _; apply Hview|].
    split; [done|]. intros e' _. apply Hview.
    intros j Hj. by apply (chunk_key_ne_index_map key j).
Qed.

(** X6. Whatever its outcome, [chunk_and_write_bytes] leaves every tier of
    the cache chain empty, with the capacity it had: nothing stays cached
    after a call, and a call never resizes a tier. *)
Theorem tiers_left_empty b key comp c w :
  let w' := (chunk_and_write_bytes b key comp c w).1 in
  cache_chain w' = emptied <$> cache_chain w
  ∧ Forall (λ t, items t = [] ∧ used_space t = 0) (cache_chain w')
  ∧ max_size <$> cache_chain w' = max_size <$> cache_chain w
  ∧ max_size (storage w') = max_size (storage w).
Proof.
  cbv zeta.
  destruct (chunk_and_write_bytes_any b key comp c w) as (Hch & Hmax & _).
  split; [done|]. rewrite Hch. split; [|split; [|done]].
  - apply Forall_fmap, Forall_forall. intros t _. simpl.
    split; [apply items_emptied|apply used_space_emptied].
  - rewrite <- list_fmap_compose. by apply list_fmap_ext.
Qed.

(** X7. A sample write never removes a key from the backend, whether it
    succeeds or raises. *)
Theorem backend_keys_never_removed P a key comp c batched w k :
  is_Some (mapper (storage w) !! k) →
  is_Some (mapper (storage (chunk_and_write_array P a key comp c batched w).1) !! k).
Proof.
  intros Hk. destruct batched; [done|].
  destruct (chunk_and_write_array_any P a key comp c w) as (_ & _ & _ & H & _).
  by apply H.
Qed.

Lemma backend_keys_never_removed_witness :
  is_Some (mapper (storage (chunk_and_write_array UnaryPickle.pickler
                              (Array uint8 [3] (B "abc")) "tensor" id 4 false
                              (World (mk {["other/c0" := B "zz"]} None) [mk ∅ (Some 2)])).1)
           !! "other/c0").
Proof.
  apply backend_keys_never_removed. vm_compute. eauto.
Defined.

(** X8. A sample write to [key], started with empty tiers, changes the
    backend at the chunk keys [key/c<j>] and at [key/index_map] only: every
    other key reads what it read before, whether the write succeeds or
    raises. *)
Theorem write_touches_only_its_keys P a key comp c batched w k :
  Forall (λ t, mapper t = ∅) (cache_chain w) →
  (∀ j, k ≠ chunk_key key j) →
  k ≠ index_map_key key →
  mapper (storage (chunk_and_write_array P a key comp c batched w).1) !! k
  = mapper (storage w) !! k.
Proof.
  intros Hemp Hk Him. destruct batched; [done|].
  destruct (chunk_and_write_array_any P a key comp c w) as (_ & _ & H & _).
  rewrite H by done. by rewrite view_no_cache.
Qed.

Lemma write_touches_only_its_keys_witness :
  mapper (storage (chunk_and_write_array UnaryPickle.pickler
                     (Array uint8 [3] (B "abc")) "tensor" id 4 false
                     (World (mk {["other/c0" := B "zz"]} None) [mk ∅ (Some 2)])).1)
    !! "other/c0"
  = mapper (mk {["other/c0" := B "zz"]} None) !! "other/c0".
Proof.
  apply (write_touches_only_its_keys UnaryPickle.pickler (Array uint8 [3] (B "abc"))
           "tensor" id 4 false
           (World (mk {["other/c0" := B "zz"]} None) [mk ∅ (Some 2)]) "other/c0").
  - repeat constructor.
  - intros j. discriminate.
  - discriminate.
Defined.

(** X9. A sample write that raises leaves the index map of the key as it
    was: the index map is only written once every chunk has been. *)
Theorem failed_write_keeps_index_map P a key comp c batched w e :
  (chunk_and_write_array P a key comp c batched w).2 = Raise e →
  Forall (λ t, mapper t !! index_map_key key = None) (cache_chain w) →
  mapper (storage (chunk_and_write_array P a key comp c batched w).1)
    !! index_map_key key
  = mapper (storage w) !! index_map_key key.
Proof.
  intros He Habs. destruct batched; [done|].
  destruct (chunk_and_write_array_any P a key comp c w) as (_ & _ & _ & _ & H).
  rewrite (H e He). by apply flushed_into_absent.
Qed.

Lemma failed_write_keeps_index_map_witness :
  let w := World (mk {["tensor/index_map" := B "previous"]} None) [mk ∅ (Some 2)] in
  mapper (storage (chunk_and_write_array UnaryPickle.pickler
                     (Array uint8 [3] (B "abc")) "tensor" id 4 false w).1)
    !! index_map_key "tensor"
  = mapper (storage w) !! index_map_key "tensor".
Proof.
  intros w.
  apply (failed_write_keeps_index_map UnaryPickle.pickler (Array uint8 [3] (B "abc"))
           "tensor" id 4 false w CachingFailed).
  - vm_compute; reflexivity.
  - repeat constructor.
Defined.

(** ** Key layout *)

Lemma string_app_assoc (a b c : string) : (a +:+ b) +:+ c = a +:+ (b +:+ c).
Proof.
  induction a as [|x a IH]; [done|].
  change (String x ((a +:+ b) +:+ c) = String x (a +:+ (b +:+ c))). by rewrite IH.
Qed.

Lemma ends_with_slash_app_slash key : ends_with_slash (key +:+ "/") = true.
Proof.
  induction key as [|x key IH]; [done|].
  change (ends_with_slash (String x (key +:+ "/")) = true).
  destruct key as [|y key]; [done|].
  change (ends_with_slash (String y (key +:+ "/")) = true). exact IH.
Qed.

Lemma path_join_trailing_slash key b :
  key ≠ "" → ends_with_slash key = false → starts_with_slash b = false →
  path_join (key +:+ "/") b = path_join key b.
Proof.
  intros Hne Hend Hb. unfold path_join.
  rewrite Hb, ends_with_slash_app_slash, Hend, orb_true_r.
  rewrite (bool_decide_eq_false_2 (key = "")) by done.
  apply string_app_assoc.
Qed.

(** X10. Within one key the chunk keys never collide: different chunk
    indices give different backend keys, and no chunk key is the index-map
    key. *)
Theorem chunk_keys_distinct key i j :
  i ≠ j →
  chunk_key key i ≠ chunk_key key j
  ∧ chunk_key key i ≠ index_map_key key.
Proof.
  intros Hij. split; [|apply chunk_key_ne_index_map].
  by intros ?%chunk_key_inj.
Qed.

Lemma chunk_keys_distinct_witness :
  chunk_key "tensor" 9 ≠ chunk_key "tensor" 10
  ∧ chunk_key "tensor" 9 ≠ index_map_key "tensor".
Proof. apply (chunk_keys_distinct "tensor" 9 10). lia. Defined.

(** X11. Keys are joined as paths, so a key and the same key followed by a
    slash address the same chunks and the same index map; with the empty
    key the chunk keys are the bare [c<i>]. *)
Theorem trailing_slash_aliases key i :
  key ≠ "" → ends_with_slash key = false →
  chunk_key (key +:+ "/") i = chunk_key key i
  ∧ index_map_key (key +:+ "/") = index_map_key key
  ∧ chunk_key "" i = "c" +:+ pretty i.
Proof.
  intros Hne Hend. unfold chunk_key, index_map_key.
  split; [by apply path_join_trailing_slash|].
  split; [by apply path_join_trailing_slash|done].
Qed.

Lemma trailing_slash_aliases_witness :
  chunk_key "tensor/" 3 = chunk_key "tensor" 3
  ∧ index_map_key "tensor/" = index_map_key "tensor"
  ∧ chunk_key "" 3 = "c" +:+ pretty 3.
Proof. apply (trailing_slash_aliases "tensor" 3); [discriminate|reflexivity]. Defined.

(** ** The sample writer on success *)

(** X12. After a successful unbatched write, started with no tier holding a
    chunk of the key: every tier is empty; the backend holds, under
    [key/c<j>], the compressor's output for the [j]-th chunk the generator
    yields for the array's bytes, for every [j]; and [key/index_map] holds
    the pickled list of the single entry
    [{start_chunk 0, end_chunk n-1, dtype, shape}], [n >= 1] being the
    number of chunks. *)
Theorem successful_write_layout P a key comp c w w' :
  chunk_and_write_array P a key comp c false w = (w', Ok tt) →
  (∀ j, Forall (λ t, mapper t !! chunk_key key j = None) (cache_chain w)) →
  1 ≤ length (generate_chunks (array_to_bytes a) c None)
  ∧ Forall (λ t, mapper t = ∅) (cache_chain w')
  ∧ mapper (storage w') !! index_map_key key
    = Some (pickle_dumps P
              [Entry 0 (length (generate_chunks (array_to_bytes a) c None) - 1)
                 (dtype_of a) (shape a)])
  ∧ (∀ j chunk, generate_chunks (array_to_bytes a) c None !! j = Some chunk →
       mapper (storage w') !! chunk_key key j = Some (comp chunk)).
Proof.
  intros Hw Habs.
  destruct (chunk_and_write_array_any P a key comp c w) as (Hch & _).
  rewrite Hw in Hch. cbn [fst] in Hch.
  apply chunk_and_write_array_ok in Hw as (Hne & Him & Hchunks); [|done].
  unfold array_to_bytes. split; [|split; [|by split]].
  - destruct (generate_chunks (buffer a) c None); [done|simpl; lia].
  - rewrite Hch. apply Forall_fmap, Forall_forall. by intros t _.
Qed.

Lemma successful_write_layout_witness :
  let w := World (mk ∅ None) [mk ∅ (Some 5)] in
  let r := chunk_and_write_array UnaryPickle.pickler (Array uint8 [6] (B "abcdef"))
             "tensor" reverse 4 false w in
  mapper (storage r.1) !! chunk_key "tensor" 1 = Some (reverse (B "ef")).
Proof.
  intros w r.
  refine (proj2 (proj2 (proj2 (successful_write_layout UnaryPickle.pickler
            (Array uint8 [6] (B "abcdef")) "tensor" reverse 4 w r.1 _ _))) 1 (B "ef") _).
  - vm_compute; reflexivity.
  - intros j. repeat constructor.
  - vm_compute; reflexivity.
Defined.

(** ** The merge of tests/test_generate_chunks.py, for any slices *)

(** X13. The running list of [run_test] never loses, duplicates or reorders
    a byte, whatever slices it is fed: after any sequence of slices the
    chunks concatenate to what they did before followed by the slices. *)
Theorem merge_preserves_bytes c st slices :
  concat (foldl (run_test_step c) st slices).1 = concat st.1 ++ concat slices
  ∧ length st.1 ≤ length (foldl (run_test_step c) st slices).1.
Proof.
  split; [apply run_test_steps_concat|].
  revert st; induction slices as [|s slices IH]; intros st; [done|].
  cbn [foldl]. specialize (IH (run_test_step c st s)).
  assert (length st.1 ≤ length (run_test_step c st s).1); [|lia].
  cbn [run_test_step fst].
  unfold fill_or_append. destruct (last st.1) as [prev|] eqn:Hlast.
  - destruct (decide (c ≤ length prev)); [rewrite length_app; simpl; lia|].
    apply last_Some in Hlast as [l' ->].
    rewrite removelast_last, !length_app. simpl. lia.
  - rewrite length_app. simpl. lia.
Qed.

Lemma fill_or_append_full c chunks s :
  Forall (λ x, c ≤ length x) (removelast chunks) →
  Forall (λ x, c ≤ length x) (removelast (fill_or_append c chunks s)).
Proof.
  intros Hinv. unfold fill_or_append.
  destruct (last chunks) as [prev|] eqn:Hlast.
  - apply last_Some in Hlast as [l' ->]. rewrite removelast_last in *.
    destruct (decide (c ≤ length prev)).
    + rewrite removelast_last. apply Forall_app. split; [done|by constructor].
    + by rewrite removelast_last.
  - apply last_None in Hlast as ->. constructor.
Qed.

Lemma fill_or_append_bounded c chunks s :
  length s ≤ c →
  Forall (λ x, length x < 2 * c) chunks →
  Forall (λ x, length x < 2 * c) (fill_or_append c chunks s) ∨ c = 0.
Proof.
  intros Hs Hinv. destruct (decide (c = 0)) as [|Hc]; [by right|left].
  unfold fill_or_append. destruct (last chunks) as [prev|] eqn:Hlast.
  - apply last_Some in Hlast as [l' ->].
    apply Forall_app in Hinv as [Hl' Hprev].
    destruct (decide (c ≤ length prev)).
    + apply Forall_app. split; [by apply Forall_app|]. constructor; [lia|done].
    + rewrite removelast_last. apply Forall_app. split; [done|].
      constructor; [|done]. rewrite length_app. lia.
  - apply Forall_app. split; [done|]. constructor; [lia|done].
Qed.

(** X14. In the list [run_test] builds, every chunk but the last has at
    least [chunk_size] bytes; and when no slice it is fed is longer than
    [chunk_size >= 1], no chunk reaches twice [chunk_size]. *)
Theorem merged_chunk_sizes c lcnb slices :
  1 ≤ c →
  Forall (λ s, length s ≤ c) slices →
  Forall (λ x, c ≤ length x)
    (removelast (foldl (run_test_step c) ([], lcnb) slices).1)
  ∧ Forall (λ x, length x < 2 * c) (foldl (run_test_step c) ([], lcnb) slices).1.
Proof.
  intros Hc.
  assert (∀ slices st,
    Forall (λ s, length s ≤ c) slices →
    Forall (λ x, c ≤ length x) (removelast st.1) →
    Forall (λ x, length x < 2 * c) st.1 →
    Forall (λ x, c ≤ length x) (removelast (foldl (run_test_step c) st slices).1)
    ∧ Forall (λ x, length x < 2 * c) (foldl (run_test_step c) st slices).1) as Hgen.
  { clear slices. induction slices as [|s slices IH]; intros st Hs H1 H2; [done|].
    apply Forall_cons in Hs as [Hs Hrest]. cbn [foldl]. apply IH; [done|..].
    - by apply fill_or_append_full.
    - destruct (fill_or_append_bounded c st.1 s) as [?|?]; [lia|done|done|lia]. }
  intros Hs. apply Hgen; [done|constructor..].
Qed.

Lemma merged_chunk_sizes_witness :
  1 ≤ 2
  ∧ Forall (λ s, length s ≤ 2) (B <$> ["1"; "2"; "3"; "45"; "67"])
  ∧ Forall (λ x, 2 ≤ length x)
      (removelast (foldl (run_test_step 2) ([], None)
                     (B <$> ["1"; "2"; "3"; "45"; "67"])).1)
  ∧ Forall (λ x, length x < 2 * 2)
      (foldl (run_test_step 2) ([], None) (B <$> ["1"; "2"; "3"; "45"; "67"])).1.
Proof.
  assert (Forall (λ s, length s ≤ 2) (B <$> ["1"; "2"; "3"; "45"; "67"])) as Hs
    by (repeat constructor).
  split; [lia|]. split; [exact Hs|].
  apply merged_chunk_sizes; [lia|exact Hs].
Defined.

(** * hub/collections/dataset: meta helpers and [merge] *)

Section dataset_helpers.
Import Dataset.

Lemma bind_Return {A B} (m : result A) (k : A → result B) b :
  m ≫= k = Return b → ∃ a, m = Return a ∧ k a = Return b.
Proof. destruct m as [a|e]; [|done]. intros H. by exists a. Qed.

Lemma bind_Return_l {A B} (a : A) (k : A → result B) : Return a ≫= k = k a.
Proof. reflexivity. Qed.

Lemma py_assert_Return b u : py_assert b = Return u → b = true.
Proof. by destruct b. Qed.

Lemma field_Return {A} name (o : option A) a : field name o = Return a → o = Some a.
Proof. destruct o; [|done]. by intros [= ->]. Qed.

Ltac result_inv H :=
  repeat match type of H with
  | _ ≫= _ = Return _ =>
      let a := fresh "a" in let H1 := fresh "H" in
      apply bind_Return in H as (a & H1 & H)
  end.

(** ** [merge] *)

Lemma merge_items_spec {T} (items tensors : pydict T) :
  NoDup tensors.*1 →
  merge_items items tensors
  = if decide (NoDup (tensors ++ items).*1) then Return (tensors ++ items)
    else Throw AssertionError.
Proof.
  revert tensors; induction items as [|[k v] rest IH]; intros tensors Hnd.
  - cbn [merge_items]. rewrite (right_id_L [] (++)). by rewrite decide_True.
  - cbn [merge_items]. unfold mbind, result_bind, py_assert.
    destruct (decide (k ∈ tensors.*1)) as [Hin|Hnin].
    + rewrite bool_decide_eq_false_2 by (by intros ?).
      rewrite decide_False; [done|].
      rewrite fmap_app, fmap_cons. intros [_ [Hdisj _]]%NoDup_app.
      apply (Hdisj k Hin). by left.
    + rewrite bool_decide_eq_true_2 by done.
      unfold dict_set. rewrite decide_False by done.
      rewrite IH; cycle 1.
      { rewrite fmap_app. apply NoDup_app. split; [done|]. split.
        - intros x Hx [->|[]%elem_of_nil]%elem_of_cons. done.
        - apply NoDup_singleton. }
      by rewrite <- (assoc_L (++)).
Qed.

Lemma merge_datasets_spec {T} (datasets : list (pydict T)) (tensors : pydict T) :
  NoDup tensors.*1 →
  merge_datasets datasets tensors
  = if decide (NoDup (tensors ++ concat datasets).*1)
    then Return (tensors ++ concat datasets)
    else Throw AssertionError.
Proof.
  revert tensors; induction datasets as [|d rest IH]; intros tensors Hnd.
  - cbn [merge_datasets concat]. rewrite (right_id_L [] (++)). by rewrite decide_True.
  - cbn [merge_datasets concat]. rewrite merge_items_spec by done.
    unfold mbind, result_bind.
    destruct (decide (NoDup (tensors ++ d).*1)) as [Hd|Hd].
    + rewrite IH by done. by rewrite <- (assoc_L (++)).
    + rewrite decide_False; [done|]. intros Hall. apply Hd.
      rewrite (assoc_L (++)), fmap_app in Hall. by apply NoDup_app in Hall as [? _].
Qed.

(** X15. [merge] succeeds exactly when no tensor name occurs twice over all
    the datasets; it then hands the constructor every tensor of every
    dataset, in order.  Otherwise it raises an assertion error and the
    constructor is not reached. *)
Theorem merge_spec {T D} (mk_dataset : pydict T → result D) (datasets : list (pydict T)) :
  merge mk_dataset datasets
  = if decide (NoDup (concat datasets).*1) then mk_dataset (concat datasets)
    else Throw AssertionError.
Proof.
  unfold merge. rewrite merge_datasets_spec by constructor.
  cbn [app]. by destruct (decide _).
Qed.

(** ** [_meta_concat] *)

Lemma meta_check_Return m0 m u : meta_check m0 m = Return u → agree m0 m.
Proof.
  unfold meta_check. intros H. result_inv H.
  repeat match goal with
  | H : field _ _ = Return _ |- _ => apply field_Return in H
  | H : py_assert _ = Return _ |- _ => apply py_assert_Return, bool_decide_eq_true in H
  end.
  subst. unfold agree. repeat match goal with H : _ = Some _ |- _ => rewrite H end.
  repeat split; eauto; simpl; congruence.
Qed.

Lemma meta_check_agree m0 m : agree m0 m → meta_check m0 m = Return tt.
Proof.
  intros ([d Hd] & Hd' & [s Hs] & Hs' & Hg & [c Hc] & Hc').
  unfold meta_check. rewrite Hd', Hd, Hc', Hc, Hg, Hs.
  destruct (meta_shape m) as [s'|]; [|by rewrite Hs in Hs'].
  rewrite Hs in Hs'. injection Hs' as Hs'.
  cbn. by repeat (rewrite bool_decide_eq_true_2 by congruence; cbn).
Qed.

Lemma meta_check_all_Return m0 metas u :
  meta_check_all m0 metas = Return u → Forall (agree m0) metas.
Proof.
  induction metas as [|m rest IH]; [constructor|]. cbn [meta_check_all].
  intros H. result_inv H. constructor; [by eapply meta_check_Return|by apply IH].
Qed.

Lemma meta_check_all_agree m0 metas :
  Forall (agree m0) metas → meta_check_all m0 metas = Return tt.
Proof.
  induction 1 as [|m rest Hm _ IH]; [done|]. cbn [meta_check_all].
  by rewrite (meta_check_agree _ _ Hm).
Qed.

(** Without missing keys, the loop raises nothing but an assertion error. *)
Lemma meta_check_all_outcome m0 metas :
  Forall (λ m, is_Some (meta_dtype m) ∧ is_Some (meta_shape m)
               ∧ is_Some (meta_dcompress m)) (m0 :: metas) →
  meta_check_all m0 metas = Return tt ∨ meta_check_all m0 metas = Throw AssertionError.
Proof.
  intros [([d0 Hd0] & [s0 Hs0] & [c0 Hc0]) Hall]%Forall_cons.
  induction Hall as [|m rest ([d Hd] & [s Hs] & [c Hc]) _ IH]; [by left|].
  cbn [meta_check_all]. unfold meta_check. rewrite Hd0, Hd, Hs0, Hs, Hc0, Hc. cbn.
  repeat match goal with
  | |- context [bool_decide ?P] => destruct (bool_decide P); cbn; [|by right]
  end.
  exact IH.
Qed.

Lemma first_dims_Return metas dims :
  first_dims metas = Return dims →
  Forall2 (λ m d, ∃ s, meta_shape m = Some (d :: s)) metas dims.
Proof.
  revert dims; induction metas as [|m rest IH]; intros dims; cbn [first_dims].
  - intros [= <-]. constructor.
  - intros H. result_inv H. injection H as <-.
    apply field_Return in H0. destruct a as [|d s]; [done|].
    injection H1 as ->. constructor; [by exists s|by apply IH].
Qed.

Lemma first_dims_family (f : Z → TensorMeta) tl ns :
  (∀ n, meta_shape (f n) = Some (n :: tl)) →
  first_dims (f <$> ns) = Return ns.
Proof.
  intros Hf. induction ns as [|n ns IH]; [done|].
  rewrite fmap_cons. cbn [first_dims]. rewrite Hf. cbn. by rewrite IH.
Qed.

(** X16. When [_meta_concat] returns, the metas agreed with the first one
    on dtype, trailing shape, dtag and dcompress, and the result is the
    first meta with, as first dimension, the sum of the first dimensions,
    which is not negative. *)
Theorem meta_concat_sound metas m :
  _meta_concat metas = Return m →
  ∃ m0 rest s0 dims,
    metas = m0 :: rest
    ∧ Forall (agree m0) metas
    ∧ Forall2 (λ x d, ∃ s, meta_shape x = Some (d :: s)) metas dims
    ∧ meta_shape m0 = Some s0
    ∧ (0 ≤ sum dims)%Z
    ∧ m = Meta (meta_dtype m0) (Some (sum dims :: tail s0))
               (meta_dtag m0) (meta_dcompress m0).
Proof.
  destruct metas as [|m0 rest]; [done|]. unfold _meta_concat.
  intros H. result_inv H. cbn in H.
  apply meta_check_all_Return in H0. apply first_dims_Return in H1.
  apply field_Return in H2. injection H3 as <-.
  destruct (decide (sum a0 < 0)%Z); [done|]. injection H as <-.
  exists m0, rest, a1, a0. repeat split; try done. lia.
Qed.

Lemma meta_concat_sound_witness :
  ∃ m0 rest s0 dims,
    [Meta (Some "uint8") (Some [2; 5]%Z) None (Some "lz4:4");
     Meta (Some "uint8") (Some [3; 5]%Z) None (Some "lz4:4")] = m0 :: rest
    ∧ Forall (agree m0)
        [Meta (Some "uint8") (Some [2; 5]%Z) None (Some "lz4:4");
         Meta (Some "uint8") (Some [3; 5]%Z) None (Some "lz4:4")]
    ∧ Forall2 (λ x d, ∃ s, meta_shape x = Some (d :: s))
        [Meta (Some "uint8") (Some [2; 5]%Z) None (Some "lz4:4");
         Meta (Some "uint8") (Some [3; 5]%Z) None (Some "lz4:4")] dims
    ∧ meta_shape m0 = Some s0
    ∧ (0 ≤ sum dims)%Z
    ∧ Meta (Some "uint8") (Some [5; 5]%Z) None (Some "lz4:4")
      = Meta (meta_dtype m0) (Some (sum dims :: tail s0))
             (meta_dtag m0) (meta_dcompress m0).
Proof. apply meta_concat_sound. vm_compute. reflexivity. Defined.

(** X17. On metas that agree on dtype, trailing shape, dtag and dcompress,
    [_meta_concat] returns that meta with the first dimensions summed, and
    raises a type error when the sum is negative: the branch meant to
    store [-1] assigns to a tuple. *)
Theorem meta_concat_sums d tl g c n ns :
  let family := λ k, Meta (Some d) (Some (k :: tl)) g (Some c) in
  _meta_concat (family <$> n :: ns)
  = if decide (sum (n :: ns) < 0)%Z then Throw TupleAssignment
    else Return (family (sum (n :: ns))).
Proof.
  intros family. rewrite fmap_cons. unfold _meta_concat.
  rewrite meta_check_all_agree; cycle 1.
  { rewrite <- fmap_cons. apply Forall_fmap, Forall_forall. intros k _.
    unfold agree; simpl. repeat split; eauto. }
  unfold mbind at 1, result_bind at 1.
  rewrite <- fmap_cons, (first_dims_family family tl) by done.
  cbn. by destruct (decide _).
Qed.

(** X18. When every meta has its dtype, shape and dcompress keys and some
    meta disagrees with the first on dtype, trailing shape, dtag or
    dcompress, [_meta_concat] raises an assertion error. *)
Theorem meta_concat_mismatch m0 rest :
  Forall (λ m, is_Some (meta_dtype m) ∧ is_Some (meta_shape m)
               ∧ is_Some (meta_dcompress m)) (m0 :: rest) →
  ¬ Forall (agree m0) rest →
  _meta_concat (m0 :: rest) = Throw AssertionError.
Proof.
  intros Hwf Hdis. unfold _meta_concat. cbn [meta_check_all].
  pose proof Hwf as [([d0 Hd0] & [s0 Hs0] & [c0 Hc0]) _]%Forall_cons.
  assert (meta_check m0 m0 = Return tt) as ->.
  { apply meta_check_agree. unfold agree. repeat split; eauto. }
  cbn. destruct (meta_check_all_outcome m0 rest Hwf) as [H|H]; rewrite H; [|done].
  by apply meta_check_all_Return in H.
Qed.

Lemma meta_concat_mismatch_witness :
  _meta_concat [Meta (Some "uint8") (Some [2; 5]%Z) None (Some "lz4:4");
                Meta (Some "int64") (Some [3; 5]%Z) None (Some "lz4:4")]
  = Throw AssertionError.
Proof.
  apply meta_concat_mismatch.
  - repeat constructor; simpl; eauto.
  - intros [(_ & Hd & _) _]%Forall_cons. discriminate Hd.
Defined.

(** ** [_meta_preprocess] *)

Lemma remove_dups_replicate (n : Z) k : remove_dups (replicate (S k) n) = [n].
Proof.
  induction k as [|k IH]; [done|].
  change (replicate (S (S k)) n) with (n :: replicate (S k) n).
  cbn [remove_dups].
  destruct (decide_rel elem_of n (replicate (S k) n)) as [_|Hn]; [exact IH|].
  exfalso. apply Hn. by left.
Qed.

Lemma remove_dups_singleton (l : list Z) :
  length (remove_dups l) = 1 → ∃ n, l = replicate (length l) n ∧ l ≠ [].
Proof.
  destruct (remove_dups l) as [|n [|? ?]] eqn:Hl; try done. intros _.
  assert (∀ x, x ∈ l → x = n) as Hall.
  { intros x Hx. apply elem_of_remove_dups in Hx. rewrite Hl in Hx.
    by apply list_elem_of_singleton in Hx. }
  exists n. split; [|by intros ->].
  clear Hl. induction l as [|x l IH]; [done|]. simpl.
  rewrite (Hall x) by (by left). f_equal. apply IH. intros y Hy. apply Hall. by right.
Qed.

Lemma first_dims_same (metas : list TensorMeta) n :
  Forall (λ m, ∃ s, meta_shape m = Some (n :: s)) metas →
  first_dims metas = Return (replicate (length metas) n).
Proof.
  induction 1 as [|m rest [s Hs] _ IH]; [done|].
  cbn [first_dims]. rewrite Hs. cbn. by rewrite IH.
Qed.

Lemma check_fields_Return items u :
  check_fields items = Return u → Forall (λ kv, is_Some (meta_dtype kv.2)) items.
Proof.
  induction items as [|[k v] rest IH]; [constructor|]. cbn [check_fields].
  intros H. result_inv H. apply py_assert_Return, bool_decide_eq_true in H0.
  constructor; [done|by apply IH].
Qed.

Lemma check_fields_ok items :
  Forall (λ kv, is_Some (meta_dtype kv.2) ∧ is_Some (meta_shape kv.2)) items →
  check_fields items = Return tt.
Proof.
  induction 1 as [|[k v] rest [Hd Hs] _ IH]; [done|]. cbn [check_fields].
  simpl in Hd, Hs. by rewrite !bool_decide_eq_true_2 by done.
Qed.

(** X19. [_meta_preprocess] returns its argument, and returns exactly when
    the dictionary is not empty and every tensor meta has a dtype and a
    shape with one and the same first dimension; in particular it rejects
    the empty dictionary with an assertion error. *)
Theorem meta_preprocess_spec meta :
  (_meta_preprocess meta = Return meta
   ↔ meta ≠ []
     ∧ ∃ n, Forall (λ kv, is_Some (meta_dtype kv.2)
                          ∧ ∃ s, meta_shape kv.2 = Some (n :: s)) meta)
  ∧ (∀ r, _meta_preprocess meta = Return r → r = meta)
  ∧ _meta_preprocess [] = Throw AssertionError.
Proof.
  split; [|split; [|done]].
  - split.
    + unfold _meta_preprocess. intros H. result_inv H.
      apply py_assert_Return, bool_decide_eq_true, remove_dups_singleton in H1
        as (n & Hdims & Hne).
      apply first_dims_Return in H0. apply check_fields_Return in H2.
      pose proof (Forall2_length _ _ _ H0) as Hlen. rewrite length_fmap in Hlen.
      split; [intros ->; by destruct a|]. exists n.
      rewrite Hdims in H0. clear Hdims Hne H. rewrite <- Hlen in H0. clear Hlen.
      induction meta as [|[k v] rest IH]; [constructor|].
      rewrite fmap_cons in H0. cbn [length replicate] in H0.
      apply Forall2_cons in H0 as [Hv Hrest].
      apply Forall_cons in H2 as [Hd Hdrest].
      constructor; [by split|by apply IH].
    + intros [Hne [n Hall]]. unfold _meta_preprocess.
      rewrite (first_dims_same meta.*2 n); cycle 1.
      { apply Forall_fmap. eapply Forall_impl; [exact Hall|]. by intros kv [_ ?]. }
      rewrite bind_Return_l, length_fmap. destruct meta as [|kv rest]; [done|].
      cbn [length]. rewrite remove_dups_replicate.
      change (py_assert (bool_decide (length [n] = 1))) with (Return tt).
      rewrite bind_Return_l, check_fields_ok; [done|].
      eapply Forall_impl; [exact Hall|]. intros x [? [s ->]]. eauto.
  - unfold _meta_preprocess. intros r H. result_inv H. by injection H as <-.
Qed.

Lemma meta_preprocess_spec_witness :
  _meta_preprocess [("image", Meta (Some "uint8") (Some [10; 28; 28]%Z) None None);
                    ("label", Meta (Some "int64") (Some [10]%Z) None None)]
  = Return [("image", Meta (Some "uint8") (Some [10; 28; 28]%Z) None None);
            ("label", Meta (Some "int64") (Some [10]%Z) None None)].
Proof.
  apply meta_preprocess_spec. split; [discriminate|]. exists 10%Z.
  repeat constructor; simpl; eauto.
Defined.

End dataset_helpers.

(** * More on flushing and on failing writes *)

(** X20. Flushing is idempotent: a second flush changes neither the backend
    nor the tiers. *)
Theorem flush_cache_idempotent w :
  flush_cache (flush_cache w).1 = ((flush_cache w).1, Ok tt).
Proof.
  rewrite !flush_cache_spec. cbn [fst storage cache_chain mapper max_size].
  rewrite emptied_emptied_chain, flushed_into_empty; [done|].
  apply Forall_fmap, Forall_forall. by intros t _.
Qed.

Lemma too_large_ext (chain1 chain2 : list MemoryProvider) n :
  emptied <$> chain1 = emptied <$> chain2 →
  Forall (λ t, has_space (emptied t) n = false) chain1 →
  Forall (λ t, has_space (emptied t) n = false) chain2.
Proof.
  intros Heq H1.
  assert (∀ chain : list MemoryProvider,
    Forall (λ t, has_space (emptied t) n = false) chain
    ↔ Forall (λ e, has_space e n = false) (emptied <$> chain)) as Hiff.
  { intros chain. by rewrite Forall_fmap. }
  apply Hiff. rewrite <- Heq. by apply Hiff.
Qed.

Lemma write_chunks_raise_iff key comp chunks idx lci w :
  (write_chunks key comp idx chunks lci w).2 = Raise CachingFailed
  ↔ cache_chain w ≠ []
    ∧ Exists (λ chunk, Forall (λ t, has_space (emptied t) (length (comp chunk)) = false)
                         (cache_chain w)) chunks.
Proof.
  revert idx lci w; induction chunks as [|chunk rest IH]; intros idx lci w.
  - split; [done|]. by intros [_ ?%Exists_nil].
  - rewrite write_chunks_cons.
    pose proof (write_bytes_with_caching_raise_iff (chunk_key key idx) (comp chunk) w)
      as Hhead.
    pose proof (write_bytes_with_caching_any (chunk_key key idx) (comp chunk) w)
      as (Hemp & _).
    destruct (write_bytes_with_caching _ _ w) as [w1 [[]|e]] eqn:E1; cbn [fst snd] in *.
    + rewrite IH, Exists_cons. split.
      * intros [Hne Hex]. split.
        -- intros Hw. rewrite Hw in Hemp. by destruct (cache_chain w1).
        -- right. eapply Exists_impl; [exact Hex|]. intros x. by apply too_large_ext.
      * intros [Hne [Hbig|Hex]].
        -- by destruct Hhead as [_ Hhead]; specialize (Hhead (conj Hne Hbig)).
        -- split.
           ++ intros Hw1. rewrite Hw1 in Hemp. by destruct (cache_chain w).
           ++ eapply Exists_impl; [exact Hex|]. intros x. by apply too_large_ext.
    + apply write_bytes_with_caching_raise in E1 as (-> & _ & Hne & Hbig).
      split; [|done]. intros _. split; [done|]. by left.
Qed.

(** X21. [chunk_and_write_bytes] raises the caching failure exactly when
    the chain is not empty and the compressor's output for some chunk is
    refused by every tier even when empty; an earlier chunk never makes a
    later one fail. *)
Theorem write_fails_iff_chunk_too_large b key comp c w :
  (chunk_and_write_bytes b key comp c w).2 = Raise CachingFailed
  ↔ cache_chain w ≠ []
    ∧ Exists (λ chunk, Forall (λ t, has_space (emptied t) (length (comp chunk)) = false)
                         (cache_chain w))
        (generate_chunks b c None).
Proof.
  rewrite <- (write_chunks_raise_iff key comp (generate_chunks b c None) 0 None w).
  rewrite chunk_and_write_bytes_unfold.
  destruct (write_chunks _ _ _ _ _ w) as [w1 [[end_chunk|]|e]]; cbn [snd];
    split; intros H; try discriminate H; by injection H as ->.
Qed.

Lemma write_fails_iff_chunk_too_large_witness :
  (chunk_and_write_bytes (B "abcdef") "tensor" id 4
     (World (mk ∅ None) [mk ∅ (Some 3); mk ∅ (Some 2)])).2 = Raise CachingFailed.
Proof.
  apply (write_fails_iff_chunk_too_large (B "abcdef") "tensor" id 4
           (World (mk ∅ None) [mk ∅ (Some 3); mk ∅ (Some 2)])).
  split; [discriminate|]. left. repeat constructor.
Defined.

(** * Capacity exhaustion in the middle of a sample *)

Lemma write_chunks_app key comp l1 l2 idx lci w :
  write_chunks key comp idx (l1 ++ l2) lci w
  = match write_chunks key comp idx l1 lci w with
    | (w1, Ok r) => write_chunks key comp (idx + length l1) l2 r w1
    | (w1, Raise e) => (w1, Raise e)
    end.
Proof.
  revert idx lci w; induction l1 as [|chunk l1 IH]; intros idx lci w.
  - cbn [app length]. by rewrite Nat.add_0_r.
  - rewrite <- app_comm_cons, !write_chunks_cons.
    destruct (write_bytes_with_caching _ _ w) as [w1 [[]|e]]; [|done].
    rewrite IH. cbn [length]. by replace (S idx + length l1) with (idx + S (length l1)) by lia.
Qed.

Lemma fits_not_too_large (chain : list MemoryProvider) (sizes : list nat) :
  Forall (λ n, Exists (λ t, has_space (emptied t) n = true) chain) sizes →
  ¬ Exists (λ n, Forall (λ t, has_space (emptied t) n = false) chain) sizes.
Proof.
  intros Hfit (n & Hn & Hbig)%Exists_exists.
  apply (proj1 (Forall_forall _ _) Hfit) in Hn as (t & Ht & Hyes)%Exists_exists.
  apply (proj1 (Forall_forall _ _) Hbig) in Ht. congruence.
Qed.

(** C5, as stated, fails.  Chunk size 4, one tier of capacity 5, a
    compressor that pads short chunks: the second chunk of a 6-byte payload
    fits in no tier even when empty and the write raises, yet the first
    chunk of the same call, absent from the backend before, is on the
    backend after: the flush that precedes the retry has published it. *)
Lemma capacity_exhaustion_not_atomic :
  let comp := λ x : bytes, if decide (length x < 4) then x ++ replicate 8 x00 else x in
  let w := World (mk ∅ None) [mk ∅ (Some 5)] in
  let r := chunk_and_write_bytes (B "123456") "tensor" comp 4 w in
  generate_chunks (B "123456") 4 None = [B "1234"; B "56"]
  ∧ Forall (λ t, has_space (emptied t) (length (comp (B "56"))) = false) (cache_chain w)
  ∧ r.2 = Raise CachingFailed
  ∧ mapper (storage w) !! chunk_key "tensor" 0 = None
  ∧ mapper (storage r.1) !! chunk_key "tensor" 0 = Some (B "1234").
Proof.
  intros comp w r. split; [vm_compute; reflexivity|].
  split; [repeat constructor|]. repeat split; vm_compute; reflexivity.
Qed.

(** C5, amended.  When the chain is not empty, no tier holds a chunk of the
    key, and the compressor's output for one chunk of the sample fits in no
    tier even when empty while every chunk before it fits some tier when
    empty: the write raises the caching failure and leaves every tier
    empty; the chunks before the refused one are on the backend, published
    by the flush that precedes the retry; every other key, those of the
    refused chunk and of the later ones included, reads what a flush alone
    would have left.  When the refused chunk is the first, the world is
    exactly the one a flush alone leaves: no chunk of the call is visible. *)
Theorem capacity_exhaustion_in_sample b key comp c w pre chunk post :
  generate_chunks b c None = pre ++ chunk :: post →
  cache_chain w ≠ [] →
  Forall (λ ch, Exists (λ t, has_space (emptied t) (length (comp ch)) = true)
                  (cache_chain w)) pre →
  Forall (λ t, has_space (emptied t) (length (comp chunk)) = false) (cache_chain w) →
  (∀ j, Forall (λ t, mapper t !! chunk_key key j = None) (cache_chain w)) →
  (chunk_and_write_bytes b key comp c w).2 = Raise CachingFailed
  ∧ Forall (λ t, mapper t = ∅) (cache_chain (chunk_and_write_bytes b key comp c w).1)
  ∧ (∀ j ch, pre !! j = Some ch →
       mapper (storage (chunk_and_write_bytes b key comp c w).1) !! chunk_key key j
       = Some (comp ch))
  ∧ (∀ k, (∀ j, j < length pre → k ≠ chunk_key key j) →
       mapper (storage (chunk_and_write_bytes b key comp c w).1) !! k
       = mapper (storage (flush_cache w).1) !! k)
  ∧ (pre = [] → (chunk_and_write_bytes b key comp c w).1 = (flush_cache w).1).
Proof.
  intros Hgen Hne Hfit Hbig Habs.
  rewrite chunk_and_write_bytes_unfold, Hgen, write_chunks_app.
  pose proof (write_chunks_outcome key comp pre 0 None w) as Hout.
  pose proof (write_chunks_raise_iff key comp pre 0 None w) as Hiff.
  pose proof (write_chunks_any key comp pre 0 None w) as (Hemp & _).
  destruct (write_chunks key comp 0 pre None w) as [w1 [r1|e1]] eqn:Hpre;
    cbn [fst snd] in *.
  - apply write_chunks_ok in Hpre as Hok; [|by intros j _].
    destruct Hok as [Hchunks Hother].
    rewrite write_chunks_cons.
    pose proof (write_bytes_with_caching_raise_iff
                  (chunk_key key (0 + length pre)) (comp chunk) w1) as [_ Hraise].
    destruct (write_bytes_with_caching _ _ w1) as [w2 o] eqn:E. cbn [snd] in Hraise.
    assert (o = Raise CachingFailed) as ->.
    { apply Hraise. split.
      - intros Hw1. rewrite Hw1 in Hemp. by destruct (cache_chain w).
      - by apply (too_large_ext (cache_chain w)). }
    apply write_bytes_with_caching_raise in E as (_ & -> & _).
    destruct (view_flush w1) as [_ Hst]. destruct (view_flush w) as [_ Hst0].
    cbn [fst snd]. split; [done|]. split; [|split; [|split]].
    + rewrite flush_cache_spec. apply Forall_fmap, Forall_forall. by intros t _.
    + intros j ch Hj. rewrite Hst. by apply (Hchunks j ch).
    + intros k Hk. rewrite Hst, Hst0. by apply Hother.
    + intros ->. cbn in Hpre. by injection Hpre as <- _.
  - exfalso. subst e1. destruct Hiff as [[_ Hex] _]; [done|].
    apply (fits_not_too_large (cache_chain w) (length ∘ comp <$> pre)).
    + by apply Forall_fmap.
    + by apply Exists_fmap.
Qed.

Lemma capacity_exhaustion_in_sample_witness :
  let comp := λ x : bytes, if decide (length x < 4) then x ++ replicate 8 x00 else x in
  let w := World (mk ∅ None) [mk ∅ (Some 5)] in
  (chunk_and_write_bytes (B "123456") "tensor" comp 4 w).2 = Raise CachingFailed
  ∧ Forall (λ t, mapper t = ∅)
      (cache_chain (chunk_and_write_bytes (B "123456") "tensor" comp 4 w).1)
  ∧ (∀ j ch, [B "1234"] !! j = Some ch →
       mapper (storage (chunk_and_write_bytes (B "123456") "tensor" comp 4 w).1)
         !! chunk_key "tensor" j = Some (comp ch))
  ∧ (∀ k, (∀ j, j < length [B "1234"] → k ≠ chunk_key "tensor" j) →
       mapper (storage (chunk_and_write_bytes (B "123456") "tensor" comp 4 w).1) !! k
       = mapper (storage (flush_cache w).1) !! k)
  ∧ ([B "1234"] = [] →
     (chunk_and_write_bytes (B "123456") "tensor" comp 4 w).1 = (flush_cache w).1).
Proof.
  intros comp w.
  apply (capacity_exhaustion_in_sample (B "123456") "tensor" comp 4 w
           [B "1234"] (B "56") []).
  - vm_compute; reflexivity.
  - discriminate.
  - repeat constructor.
  - repeat constructor.
  - intros j. repeat constructor.
Defined.
